(** * Backend script API of Trilium: launcher reconciliation, note creation, log batching

    A shallow embedding of [src/services/backend_script_api.js].  The three
    operations of the script API that carry logic of their own are embedded
    statement by statement: [createOrUpdateLauncher], [createNote] and [log].
    The services they call into (becca, notes, special_notes, branches, sql,
    spaced_update) live in other files of the repository; each of them is
    given a small executable model whose doc comment says where it comes
    from. *)

From stdpp Require Import gmap strings list fin_maps pretty.
From Stdlib Require Import ZArith.

Local Open Scope string_scope.
Local Open Scope list_scope.

(** ** JavaScript values, truthiness and errors *)

#[warnings="-register-all"]
Inductive JsValue : Type :=
  | JsUndefined
  | JsNull
  | JsBool (b : bool)
  | JsNumber (n : Z)
  | JsString (s : string)
  | JsArray (elems : list JsValue)
  | JsObject (props : list (string * JsValue)).

(** ToBoolean of the language: [undefined], [null], [false], [0] and the
    empty string are falsy; every array and object is truthy. *)
Definition truthy (v : JsValue) : bool :=
  match v with
  | JsUndefined | JsNull => false
  | JsBool b => b
  | JsNumber n => negb (n =? 0)%Z
  | JsString s => negb (String.eqb s "")
  | JsArray _ | JsObject _ => true
  end.

(** A property holding a string, or missing ([None] is [undefined]). *)
Definition truthyStr (o : option string) : bool :=
  match o with
  | Some s => negb (String.eqb s "")
  | None => false
  end.

(** Reads a string property that an earlier check has shown to be present. *)
Definition str (o : option string) : string := default "" o.

(** [Error] is what [throw new Error(msg)] raises; [TypeError] is what the
    runtime raises when a property of [undefined] or [null] is read. *)
Inductive JsError : Type :=
  | Error (message : string)
  | TypeError (message : string).

(** ** Strings: the id pattern and [trim] *)

Definition inRange (lo hi : nat) (c : Ascii.ascii) : bool :=
  let n := Ascii.nat_of_ascii c in (lo <=? n)%nat && (n <=? hi)%nat.

(** The character class [[a-z0-9]] under the [i] flag. *)
Definition isAlnum (c : Ascii.ascii) : bool :=
  inRange 48 57 c || inRange 65 90 c || inRange 97 122 c.

(** [alnumRun run s]: [s] continues a run of [run] alphanumeric characters
    to one of six or more, or holds such a run further on. *)
Fixpoint alnumRun (run : nat) (s : string) : bool :=
  if (6 <=? run)%nat then true
  else match s with
       | EmptyString => false
       | String c s' => if isAlnum c then alnumRun (S run) s' else alnumRun 0 s'
       end.

(** [s.match(/[a-z0-9]{6,1000}/i)] is not [null]: the pattern carries no
    anchors, so it matches as soon as six alphanumeric characters stand
    next to each other somewhere in [s]. *)
Definition matchesIdPattern (s : string) : bool := alnumRun 0 s.

(** White space removed by [String.prototype.trim], within ASCII: TAB, LF,
    VT, FF, CR and SP. *)
Definition isWhiteSpace (c : Ascii.ascii) : bool :=
  inRange 9 13 c || inRange 32 32 c.

Fixpoint trimStart (s : string) : string :=
  match s with
  | EmptyString => EmptyString
  | String c s' => if isWhiteSpace c then trimStart s' else s
  end.

Definition trim (s : string) : string :=
  String.rev (trimStart (String.rev (trimStart s))).

(** [opts.title?.trim()] *)
Definition trimOpt (o : option string) : option string := trim <$> o.

(** ** Entities of the note graph

    Modelled from the spec: the entity classes (absent from src) with the
    fields that the data model of the spec lists for a note, a branch and
    an attribute.  The content of a note is kept with the note. *)

Module BNote.
Record t : Type := mk {
  noteId : string;
  title : string;
  type : string;
  mime : string;
  content : JsValue
}.
Definition set_title (v : string) (n : t) : t :=
  mk (noteId n) v (type n) (mime n) (content n).
End BNote.

Module BBranch.
Record t : Type := mk {
  branchId : string;
  noteId : string;
  parentNoteId : string;
  prefix : string;
  notePosition : Z;
  isExpanded : bool
}.
Definition set_parentNoteId (p : string) (b : t) : t :=
  mk (branchId b) (noteId b) p (prefix b) (notePosition b) (isExpanded b).
End BBranch.

Module BAttribute.
Record t : Type := mk {
  attributeId : string;
  noteId : string;
  type : string;
  name : string;
  value : string;
  isInheritable : bool
}.
Definition set_value (v : string) (a : t) : t :=
  mk (attributeId a) (noteId a) (type a) (name a) v (isInheritable a).
End BAttribute.

(** Modelled from the spec: the entity cache ([becca], absent from src).  It
    holds the materialized graph of notes, branches and attributes and is
    the single source of truth for what exists; cache and store never
    diverge, so one value stands for both.  Notes are keyed by id; branches
    and attributes are kept in creation order.  [nextId] is the supply of
    fresh entity ids. *)
Record Becca : Type := mkBecca {
  notes : gmap string BNote.t;
  branches : list BBranch.t;
  attributes : list BAttribute.t;
  nextId : nat
}.

Definition set_notes (f : gmap string BNote.t → gmap string BNote.t) (s : Becca) : Becca :=
  mkBecca (f (notes s)) (branches s) (attributes s) (nextId s).
Definition set_branches (f : list BBranch.t → list BBranch.t) (s : Becca) : Becca :=
  mkBecca (notes s) (f (branches s)) (attributes s) (nextId s).
Definition set_attributes (f : list BAttribute.t → list BAttribute.t) (s : Becca) : Becca :=
  mkBecca (notes s) (branches s) (f (attributes s)) (nextId s).
Definition set_nextId (f : nat → nat) (s : Becca) : Becca :=
  mkBecca (notes s) (branches s) (attributes s) (f (nextId s)).

(** ** Computations that mutate a store and may throw

    The store reached when an exception is thrown is kept in the outcome:
    what was mutated before a [throw] stays mutated unless a transaction
    undoes it. *)

Definition Eff (S A : Type) : Type := S → (JsError + A) * S.

Definition ret {S A} (a : A) : Eff S A := λ s, (inr a, s).
Definition throw {S A} (e : JsError) : Eff S A := λ s, (inl e, s).
Definition bind {S A B} (m : Eff S A) (k : A → Eff S B) : Eff S B :=
  λ s, match m s with
       | (inl e, s') => (inl e, s')
       | (inr a, s') => k a s'
       end.
Definition get {S} : Eff S S := λ s, (inr s, s).
Definition modify {S} (f : S → S) : Eff S unit := λ s, (inr tt, f s).
Definition when {S} (c : bool) (m : Eff S unit) : Eff S unit :=
  if c then m else ret tt.

Declare Scope eff_scope.
Delimit Scope eff_scope with eff.
Notation "'let*' x ':=' m 'in' k" := (bind m (λ x, k))
  (at level 10, x name, m at level 100, k at level 200,
   format "'[v' 'let*'  x  :=  m  'in'  '/' k ']'") : eff_scope.
Notation "m ;;; k" := (bind m (λ _, k))
  (at level 100, right associativity) : eff_scope.
Local Open Scope eff_scope.

Fixpoint forEach {S A} (f : A → Eff S unit) (l : list A) : Eff S unit :=
  match l with
  | [] => ret tt
  | x :: l' => f x ;;; forEach f l'
  end.

(** ** Collaborators of the script API *)

(** Modelled from the spec: [becca.getNote] (absent from src), the
    entity lookup by id; [None] is the missing note. *)
Definition getNote (noteId : string) (s : Becca) : option BNote.t :=
  notes s !! noteId.

(** Modelled from the spec: the id generator of the entity layer (absent
    from src).  Ids are drawn from the store's supply. *)
Definition newEntityId : Eff Becca string :=
  λ s, (inr ("e" +:+ pretty (nextId s)), set_nextId S s).

Module NoteParams.
Record t : Type := mk {
  noteId : option string;
  parentNoteId : string;
  title : string;
  content : JsValue;
  type : string;
  mime : option string
}.
End NoteParams.

(** Modelled from the spec: the default mime of a note type, used when the
    caller gives none (the table is in [notes.js], absent from src). *)
Definition deriveMime (type : string) (mime : option string) : string :=
  match mime with
  | Some m => m
  | None => if String.eqb type "text" then "text/html" else ""
  end.

(** Modelled from the spec: the position of a new child is assigned by the
    note service (absent from src); the doc comment of [createNewNote] in
    src gives it as the last existing position in the parent plus ten. *)
Definition getNewNotePosition (parentNoteId : string) (s : Becca) : Z :=
  foldr Z.max 0%Z
    (BBranch.notePosition <$>
       filter (λ b, BBranch.parentNoteId b = parentNoteId) (branches s)) + 10.

(** Modelled from the spec: [noteService.createNewNote] (absent from src).
    It creates the note and its initial branch under the parent, and fails
    when the parent does not resolve. *)
Definition createNewNote (p : NoteParams.t) : Eff Becca (BNote.t * BBranch.t) :=
  let* s := get in
  match getNote (NoteParams.parentNoteId p) s with
  | None => throw (Error ("Parent note '" +:+ NoteParams.parentNoteId p +:+ "' was not found."))
  | Some _ =>
      let* noteId := match NoteParams.noteId p with
               | Some i => ret i
               | None => newEntityId
               end in
      let* branchId := newEntityId in
      let note := BNote.mk noteId (NoteParams.title p) (NoteParams.type p)
                    (deriveMime (NoteParams.type p) (NoteParams.mime p))
                    (NoteParams.content p) in
      let branch := BBranch.mk branchId noteId (NoteParams.parentNoteId p) ""
                      (getNewNotePosition (NoteParams.parentNoteId p) s) false in
      modify (set_notes (insert noteId note)) ;;;
      modify (set_branches (λ bs, bs ++ [branch])) ;;;
      ret (note, branch)
  end.

(** Modelled from the spec: [specialNotesService.createLauncher] (absent
    from src).  It creates the launcher fresh, as a note of the reserved
    launcher type, under the given container.  The spec names no initial
    title; reconciliation sets it right after. *)
Definition createLauncher (noteId parentNoteId launcherType : string)
  : Eff Becca (BNote.t * BBranch.t) :=
  createNewNote (NoteParams.mk (Some noteId) parentNoteId "" (JsString "") "launcher" None).

(** Modelled from the spec: [launcherNote.title = title] followed by
    [launcherNote.save()] ([save] is absent from src).  The entity object
    is the cache's own, so the assignment and the save together update the
    note held under its id. *)
Definition saveTitle (n : BNote.t) (title : string) : Eff Becca BNote.t :=
  let n' := BNote.set_title title n in
  modify (set_notes (insert (BNote.noteId n') n')) ;;;
  ret n'.

(** Modelled from the spec: [note.getParentBranches()] (absent from src),
    the incoming branches of the note. *)
Definition getParentBranches (noteId : string) (s : Becca) : list BBranch.t :=
  filter (λ b, BBranch.noteId b = noteId) (branches s).

(** Modelled from the spec: [branchService.moveBranchToNote] (absent from
    src).  The branch is moved to the desired parent: a structural
    relocation of that branch, not a creation and a deletion. *)
Definition moveBranchToNote (branch : BBranch.t) (parentNoteId : string) : Eff Becca unit :=
  modify (set_branches (fmap (λ b,
    if decide (BBranch.branchId b = BBranch.branchId branch)
    then BBranch.set_parentNoteId parentNoteId b else b))).

(** The attribute belongs to the note and has that type and name. *)
Definition ownedAttr (noteId type name : string) (a : BAttribute.t) : bool :=
  bool_decide (BAttribute.noteId a = noteId) &&
  bool_decide (BAttribute.type a = type) &&
  bool_decide (BAttribute.name a = name).

(** Overwrites the value of the first attribute that [p] selects. *)
Fixpoint updateFirst (p : BAttribute.t → bool) (v : string) (l : list BAttribute.t)
  : list BAttribute.t :=
  match l with
  | [] => []
  | a :: l' => if p a then BAttribute.set_value v a :: l' else a :: updateFirst p v l'
  end.

(** Modelled from the spec: what [note.setRelation] and [note.setLabel]
    (absent from src) share.  The attribute of that type and name is set to
    the value, overwriting any prior value; it is created when the note has
    none. *)
Definition setAttribute (noteId type name value : string) : Eff Becca unit :=
  let* s := get in
  if existsb (ownedAttr noteId type name) (attributes s)
  then modify (set_attributes (updateFirst (ownedAttr noteId type name) value))
  else
    let* attributeId := newEntityId in
    modify (set_attributes (λ l,
      l ++ [BAttribute.mk attributeId noteId type name value false])).

(** Modelled from the spec: [note.setRelation(name, value)]. *)
Definition setRelation (noteId name value : string) : Eff Becca unit :=
  setAttribute noteId "relation" name value.

(** Modelled from the spec: [note.setLabel(name, value)]. *)
Definition setLabel (noteId name value : string) : Eff Becca unit :=
  setAttribute noteId "label" name value.

(** Modelled from the spec: [note.removeLabel] (absent from src): any
    existing label of that name is removed from the note. *)
Definition removeLabel (noteId name : string) : Eff Becca unit :=
  modify (set_attributes (filter (λ a, ownedAttr noteId "label" name a = false))).

(** ** [createOrUpdateLauncher] *)

Module Opts.
Record t : Type := mk {
  id : option string;
  type : option string;
  title : option string;
  isVisible : bool;
  icon : option string;
  keyboardShortcut : option string;
  targetNoteId : option string;
  scriptNoteId : option string;
  widgetNoteId : option string
}.
End Opts.

Definition isType (ty : string) (o : option string) : bool := bool_decide (o = Some ty).

(** The eight guards that open [createOrUpdateLauncher], in source order:
    the first one that fires gives the error thrown. *)
Definition validateLauncherOpts (opts : Opts.t) : option JsError :=
  if negb (truthyStr (Opts.id opts)) then
    Some (Error "ID is a mandatory parameter for api.createOrUpdateLauncher(opts)")
  else if negb (matchesIdPattern (str (Opts.id opts))) then
    Some (Error "ID must be an alphanumeric string at least 6 characters long.")
  else if negb (truthyStr (Opts.type opts)) then
    Some (Error "Launcher Type is a mandatory parameter for api.createOrUpdateLauncher(opts)")
  else if negb (bool_decide (str (Opts.type opts) ∈ ["note"; "script"; "customWidget"])) then
    Some (Error ("Given launcher type '" +:+ str (Opts.type opts) +:+ "'"))
  else if negb (truthyStr (trimOpt (Opts.title opts))) then
    Some (Error "Title is a mandatory parameter for api.createOrUpdateLauncher(opts)")
  else if isType "note" (Opts.type opts) && negb (truthyStr (Opts.targetNoteId opts)) then
    Some (Error "targetNoteId is mandatory for launchers of type 'note'")
  else if isType "script" (Opts.type opts) && negb (truthyStr (Opts.scriptNoteId opts)) then
    Some (Error "scriptNoteId is mandatory for launchers of type 'script'")
  else if isType "customWidget" (Opts.type opts) && negb (truthyStr (Opts.widgetNoteId opts)) then
    Some (Error "widgetNoteId is mandatory for launchers of type 'customWidget'")
  else None.

Definition launcherParent (opts : Opts.t) : string :=
  if Opts.isVisible opts then "_lbVisibleLaunchers" else "_lbAvailableLaunchers".

Definition launcherNoteId (opts : Opts.t) : string := "al_" +:+ str (Opts.id opts).

(** Lines 477-483: the launcher is looked up, and created when missing. *)
Definition resolveLauncher (opts : Opts.t) : Eff Becca BNote.t :=
  let* s := get in
  match getNote (launcherNoteId opts) s with
  | Some n => ret n
  | None =>
      let* r := createLauncher (launcherNoteId opts) (launcherParent opts)
                  (str (Opts.type opts)) in
      ret (fst r)
  end.

(** Lines 485-488: the title is written and saved only when it differs. *)
Definition reconcileTitle (opts : Opts.t) (launcherNote : BNote.t) : Eff Becca BNote.t :=
  if bool_decide (Some (BNote.title launcherNote) ≠ Opts.title opts)
  then saveTitle launcherNote (str (Opts.title opts))
  else ret launcherNote.

(** Lines 490-496: a launcher with exactly one parent branch is moved when
    that branch hangs under the other container. *)
Definition reconcileParent (opts : Opts.t) (launcherNote : BNote.t) : Eff Becca unit :=
  let* s := get in
  match getParentBranches (BNote.noteId launcherNote) s with
  | [branch] =>
      when (bool_decide (BBranch.parentNoteId branch ≠ launcherParent opts))
           (moveBranchToNote branch (launcherParent opts))
  | _ => ret tt
  end.

(** Lines 498-506: the relation that goes with the launcher type. *)
Definition reconcileRelation (opts : Opts.t) (launcherNote : BNote.t) : Eff Becca unit :=
  if isType "note" (Opts.type opts) then
    setRelation (BNote.noteId launcherNote) "target" (str (Opts.targetNoteId opts))
  else if isType "script" (Opts.type opts) then
    setRelation (BNote.noteId launcherNote) "script" (str (Opts.scriptNoteId opts))
  else if isType "customWidget" (Opts.type opts) then
    setRelation (BNote.noteId launcherNote) "widget" (str (Opts.widgetNoteId opts))
  else
    throw (Error ("Unrecognized launcher type '" +:+ str (Opts.type opts) +:+ "'")).

(** Lines 508-512. *)
Definition reconcileShortcut (opts : Opts.t) (launcherNote : BNote.t) : Eff Becca unit :=
  if truthyStr (Opts.keyboardShortcut opts) then
    setLabel (BNote.noteId launcherNote) "keyboardShortcut" (str (Opts.keyboardShortcut opts))
  else
    removeLabel (BNote.noteId launcherNote) "keyboardShortcut".

(** Lines 514-518. *)
Definition reconcileIcon (opts : Opts.t) (launcherNote : BNote.t) : Eff Becca unit :=
  if truthyStr (Opts.icon opts) then
    setLabel (BNote.noteId launcherNote) "iconClass" ("bx " +:+ str (Opts.icon opts))
  else
    removeLabel (BNote.noteId launcherNote) "iconClass".

Definition createOrUpdateLauncher (opts : Opts.t) : Eff Becca BNote.t :=
  match validateLauncherOpts opts with
  | Some e => throw e
  | None =>
      let* launcherNote := resolveLauncher opts in
      let* launcherNote := reconcileTitle opts launcherNote in
      reconcileParent opts launcherNote ;;;
      reconcileRelation opts launcherNote ;;;
      reconcileShortcut opts launcherNote ;;;
      reconcileIcon opts launcherNote ;;;
      ret launcherNote
  end.

(** ** [JSON.stringify(value, null, '\t')] *)

Definition nl : string := String (Ascii.ascii_of_nat 10) "".
Definition tab : string := String (Ascii.ascii_of_nat 9) "".
Definition dquote : string := String (Ascii.ascii_of_nat 34) "".

Definition hexDigit (n : nat) : Ascii.ascii :=
  Ascii.ascii_of_nat (if (n <? 10)%nat then 48 + n else 87 + n).

(** One character of a quoted JSON string. *)
Definition quoteChar (c : Ascii.ascii) : string :=
  let n := Ascii.nat_of_ascii c in
  if (n =? 34)%nat then "\" +:+ dquote
  else if (n =? 92)%nat then "\\"
  else if (n =? 8)%nat then "\b"
  else if (n =? 9)%nat then "\t"
  else if (n =? 10)%nat then "\n"
  else if (n =? 12)%nat then "\f"
  else if (n =? 13)%nat then "\r"
  else if (n <? 32)%nat then
    "\u00" +:+ String (hexDigit (n / 16)) (String (hexDigit (n mod 16)) "")
  else String c "".

Fixpoint quoteChars (s : string) : string :=
  match s with
  | EmptyString => ""
  | String c s' => quoteChar c +:+ quoteChars s'
  end.

Definition quote (s : string) : string := dquote +:+ quoteChars s +:+ dquote.

Fixpoint join (sep : string) (parts : list string) : string :=
  match parts with
  | [] => ""
  | [p] => p
  | p :: rest => p +:+ sep +:+ join sep rest
  end.

(** The text between the brackets of a non-empty array or object: each part
    on a line of its own, one level deeper than the bracket that closes. *)
Definition wrap (opening closing stepback : string) (parts : list string) : string :=
  match parts with
  | [] => opening +:+ closing
  | _ =>
      let indent := stepback +:+ tab in
      opening +:+ nl +:+ indent +:+ join ("," +:+ nl +:+ indent) parts
        +:+ nl +:+ stepback +:+ closing
  end.

(** SerializeJSONProperty with the gap set to one tab.  [None] is
    [undefined]: such a member of an object is left out, such an element of
    an array is written [null].  Members are written in the order in which
    the object enumerates them.  A number is written as the decimal digits
    of the integer, which is what the language writes for a safe integer;
    numbers beyond the safe integers are outside this model. *)
Fixpoint serialize (stepback : string) (v : JsValue) {struct v} : option string :=
  match v with
  | JsUndefined => None
  | JsNull => Some "null"
  | JsBool b => Some (if b then "true" else "false")
  | JsNumber n => Some (pretty n)
  | JsString s => Some (quote s)
  | JsArray elems =>
      Some (wrap "[" "]" stepback
        ((fix elements (l : list JsValue) : list string :=
            match l with
            | [] => []
            | x :: l' => default "null" (serialize (stepback +:+ tab) x) :: elements l'
            end) elems))
  | JsObject props =>
      Some (wrap "{" "}" stepback
        ((fix members (l : list (string * JsValue)) : list string :=
            match l with
            | [] => []
            | (k, x) :: l' =>
                match serialize (stepback +:+ tab) x with
                | Some sx => (quote k +:+ ": " +:+ sx) :: members l'
                | None => members l'
                end
            end) props))
  end.

Definition JSON_stringify (v : JsValue) : JsValue :=
  match serialize "" v with
  | Some s => JsString s
  | None => JsUndefined
  end.

(** [a || b] *)
Definition orElse (a b : JsValue) : JsValue := if truthy a then a else b.

(** ** [createNote] *)

Module AttrSpec.
Record t : Type := mk {
  type : string;
  name : string;
  value : option string;
  isInheritable : JsValue
}.
End AttrSpec.

Module AttributeParams.
Record t : Type := mk {
  noteId : string;
  type : string;
  name : string;
  value : option string;
  isInheritable : bool
}.
End AttributeParams.

Module ExtraOptions.
Record t : Type := mk {
  parentNoteId : option string;
  title : option string;
  content : option JsValue;
  type : option string;
  mime : option string;
  json : JsValue;
  isProtected : bool;
  attributes : option (list AttrSpec.t)
}.
Definition set_parentNoteId (v : string) (o : t) : t :=
  mk (Some v) (title o) (content o) (type o) (mime o) (json o) (isProtected o) (attributes o).
Definition set_title (v : string) (o : t) : t :=
  mk (parentNoteId o) (Some v) (content o) (type o) (mime o) (json o) (isProtected o) (attributes o).
Definition set_content (v : JsValue) (o : t) : t :=
  mk (parentNoteId o) (title o) (Some v) (type o) (mime o) (json o) (isProtected o) (attributes o).
Definition set_type (v : string) (o : t) : t :=
  mk (parentNoteId o) (title o) (content o) (Some v) (mime o) (json o) (isProtected o) (attributes o).
Definition set_mime (v : string) (o : t) : t :=
  mk (parentNoteId o) (title o) (content o) (type o) (Some v) (json o) (isProtected o) (attributes o).
(** The parameters [createNewNote] reads off the object, as far as the
    model of a note holds them: the object is handed over whole, and the
    protection that its [isProtected] asks for has no counterpart in
    [BNote.t]. *)
Definition toParams (o : t) : NoteParams.t :=
  NoteParams.mk None (str (parentNoteId o)) (str (title o)) (default JsUndefined (content o))
    (str (type o)) (mime o).
End ExtraOptions.

(** Modelled from the spec: [sql.transactional] (absent from src), the
    atomic unit of work.  It is reentrant (so says the doc comment of
    [api.transactional] in src as well: a transaction that exists already
    is used): called inside a transaction that is already open
    ([inTransaction]), it joins that transaction, and a failure of the
    unit is passed on to it as it is.  Otherwise it opens one: when the
    unit fails, nothing it did persists and the failure is passed on; when
    it succeeds, all of it persists. *)
Definition transactional {A} (inTransaction : bool) (func : Eff Becca A) : Eff Becca A :=
  if inTransaction then func
  else λ s, match func s with
            | (inl e, _) => (inl e, s)
            | (inr a, s') => (inr a, s')
            end.

(** Lines 264-270, the object handed to [createAttribute]. *)
Definition attributeParams (note : BNote.t) (attr : AttrSpec.t) : AttributeParams.t :=
  AttributeParams.mk (BNote.noteId note) (AttrSpec.type attr) (AttrSpec.name attr)
    (AttrSpec.value attr) (truthy (AttrSpec.isInheritable attr)).

(** The default of the [content] parameter. *)
Definition contentOrDefault (content : JsValue) : JsValue :=
  match content with JsUndefined => JsString "" | _ => content end.

(** Lines 242-243. *)
Definition enterOptions (parentNoteId title : string) (extraOptions : ExtraOptions.t)
  : ExtraOptions.t :=
  ExtraOptions.set_title title (ExtraOptions.set_parentNoteId parentNoteId extraOptions).

(** The error the runtime raises at [parentNote.type] when the lookup of
    the parent gave nothing. *)
Definition missingParentError : JsError :=
  TypeError "Cannot read properties of undefined (reading 'type')".

Section CreateNote.

(** [attributeService.createAttribute] (absent from src): the spec takes
    it as a capability that is consumed, and says nothing on when it
    fails.  It is a parameter: any store transformer that may throw. *)
Variable createAttribute : AttributeParams.t → Eff Becca unit.

(** Lines 261-273, the unit of work handed to [sql.transactional]. *)
Definition createNoteUnit (extraOptions : ExtraOptions.t) : Eff Becca (BNote.t * BBranch.t) :=
  let* r := createNewNote (ExtraOptions.toParams extraOptions) in
  forEach (λ attr, createAttribute (attributeParams (fst r) attr))
    (default [] (ExtraOptions.attributes extraOptions)) ;;;
  ret r.

(** Lines 248-258: what the call writes onto the caller's object once the
    parent is at hand. *)
Definition resolveOptions (parentNote : BNote.t) (content : JsValue)
    (extraOptions : ExtraOptions.t) : ExtraOptions.t :=
  let isCode := String.eqb (BNote.type parentNote) "code" in
  let extraOptions := ExtraOptions.set_type (if isCode then "code" else "text") extraOptions in
  let extraOptions :=
    ExtraOptions.set_mime (if isCode then BNote.mime parentNote else "text/html") extraOptions in
  if truthy (ExtraOptions.json extraOptions) then
    let extraOptions :=
      ExtraOptions.set_content (JSON_stringify (orElse content (JsObject []))) extraOptions in
    let extraOptions := ExtraOptions.set_type "code" extraOptions in
    ExtraOptions.set_mime "application/json" extraOptions
  else
    ExtraOptions.set_content content extraOptions.

(** The outcome holds the caller's object as the call leaves it: the
    object is mutated in place, outside any transaction.  [inTransaction]
    tells whether the call is made inside a transaction already open. *)
Definition createNote (inTransaction : bool) (parentNoteId title : string)
    (content : JsValue) (extraOptions : ExtraOptions.t) (s : Becca)
  : (JsError + (BNote.t * BBranch.t)) * ExtraOptions.t * Becca :=
  let content := contentOrDefault content in
  let extraOptions := enterOptions parentNoteId title extraOptions in
  match getNote parentNoteId s with
  | None => (inl missingParentError, extraOptions, s)
  | Some parentNote =>
      let extraOptions := resolveOptions parentNote content extraOptions in
      let '(r, s') := transactional inTransaction (createNoteUnit extraOptions) s in
      (r, extraOptions, s')
  end.


End CreateNote.

(** The caller's object once lines 242-258 have run, the parent at hand. *)
Definition writtenOptions (parentNote : BNote.t) (parentNoteId title : string)
    (content : JsValue) (extraOptions : ExtraOptions.t) : ExtraOptions.t :=
  resolveOptions parentNote (contentOrDefault content)
    (enterOptions parentNoteId title extraOptions).

(** ** [log] and the batching of log messages *)

(** Modelled from the spec: [SpacedUpdate] (absent from src), the debounce
    timer of one key.  [updaterNoteId] is the [noteId] that the updater
    closure built in [log] has captured; [changed] tells whether a flush is
    scheduled (the Scheduled state of the key). *)
Record SpacedUpdate : Type := mkSpacedUpdate {
  updaterNoteId : string;
  updateInterval : nat;
  changed : bool
}.

Definition set_changed (c : bool) (su : SpacedUpdate) : SpacedUpdate :=
  mkSpacedUpdate (updaterNoteId su) (updateInterval su) c.

Module WsMessage.
Record t : Type := mk {
  type : string;
  noteId : string;
  messages : option (list JsValue)
}.
End WsMessage.

(** The instance built by the constructor, with the two services it writes
    to: [wsSent] lists what [ws.sendMessageToAllClients] was given and
    [infoLog] what [log.info] was given, oldest first. *)
Record BackendScriptApi : Type := mkApi {
  startNote : BNote.t;
  currentNote : BNote.t;
  logMessages : gmap string (list JsValue);
  logSpacedUpdates : gmap string SpacedUpdate;
  wsSent : list WsMessage.t;
  infoLog : list JsValue
}.

Definition set_currentNote (n : BNote.t) (a : BackendScriptApi) : BackendScriptApi :=
  mkApi (startNote a) n (logMessages a) (logSpacedUpdates a) (wsSent a) (infoLog a).
Definition set_logMessages (f : gmap string (list JsValue) → gmap string (list JsValue))
    (a : BackendScriptApi) : BackendScriptApi :=
  mkApi (startNote a) (currentNote a) (f (logMessages a)) (logSpacedUpdates a) (wsSent a) (infoLog a).
Definition set_logSpacedUpdates (f : gmap string SpacedUpdate → gmap string SpacedUpdate)
    (a : BackendScriptApi) : BackendScriptApi :=
  mkApi (startNote a) (currentNote a) (logMessages a) (f (logSpacedUpdates a)) (wsSent a) (infoLog a).
Definition set_wsSent (f : list WsMessage.t → list WsMessage.t)
    (a : BackendScriptApi) : BackendScriptApi :=
  mkApi (startNote a) (currentNote a) (logMessages a) (logSpacedUpdates a) (f (wsSent a)) (infoLog a).
Definition set_infoLog (f : list JsValue → list JsValue)
    (a : BackendScriptApi) : BackendScriptApi :=
  mkApi (startNote a) (currentNote a) (logMessages a) (logSpacedUpdates a) (wsSent a) (f (infoLog a)).

(** Lines 29-33 and 277-278 of the constructor. *)
Definition newBackendScriptApi (currentNote startNote : BNote.t) : BackendScriptApi :=
  mkApi startNote currentNote ∅ ∅ [] [].

(** Lines 294-301, the updater closure that [log] hands to the timer of
    [noteId]: the pending messages are taken out, an empty array is put in
    their place, and what was taken out is sent to all clients. *)
Definition updater (noteId : string) (a : BackendScriptApi) : BackendScriptApi :=
  let messages := logMessages a !! noteId in
  let a := set_logMessages (insert noteId []) a in
  set_wsSent (λ l, l ++ [WsMessage.mk "api-log-messages" noteId messages]) a.

(** Modelled from the spec: [scheduleUpdate] starts the timer of the key
    unless one is scheduled already. *)
Definition scheduleUpdate (su : SpacedUpdate) : SpacedUpdate := set_changed true su.

(** Lines 287-306. *)
Definition log (message : JsValue) (a : BackendScriptApi) : BackendScriptApi :=
  let a := set_infoLog (λ l, l ++ [message]) a in
  let noteId := BNote.noteId (startNote a) in
  let a := set_logMessages (λ m, <[noteId := default [] (m !! noteId)]> m) a in
  let a := set_logSpacedUpdates
             (λ m, <[noteId := default (mkSpacedUpdate noteId 100 false) (m !! noteId)]> m) a in
  let a := set_logMessages (alter (λ l, l ++ [message]) noteId) a in
  set_logSpacedUpdates (alter scheduleUpdate noteId) a.

(** Modelled from the spec: the timer of [key] fires.  A scheduled key goes
    back to idle and its updater runs; on a key with no timer scheduled
    nothing fires. *)
Definition timerFires (key : string) (a : BackendScriptApi) : BackendScriptApi :=
  match logSpacedUpdates a !! key with
  | Some su =>
      if changed su
      then updater (updaterNoteId su)
             (set_logSpacedUpdates (insert key (set_changed false su)) a)
      else a
  | None => a
  end.

(** What can happen to an instance between two observations. *)
Inductive ApiEvent : Type :=
  | Log (message : JsValue)
  | TimerFires (key : string)
  | Enters (note : BNote.t).

Definition step (a : BackendScriptApi) (ev : ApiEvent) : BackendScriptApi :=
  match ev with
  | Log message => log message a
  | TimerFires key => timerFires key a
  | Enters note => set_currentNote note a
  end.

Definition run (evs : list ApiEvent) (a : BackendScriptApi) : BackendScriptApi :=
  foldl step a evs.

(** ** Notions used in the statements *)

(** The cache keys every note by its own id. *)
Definition wfBecca (s : Becca) : Prop :=
  ∀ k n, notes s !! k = Some n → BNote.noteId n = k.

(** The first attribute of that type and name that the note owns. *)
Definition findAttr (noteId type name : string) (s : Becca) : option BAttribute.t :=
  List.find (ownedAttr noteId type name) (attributes s).

Definition getLabelValue (noteId name : string) (s : Becca) : option string :=
  BAttribute.value <$> findAttr noteId "label" name s.

Definition getRelationValue (noteId name : string) (s : Becca) : option string :=
  BAttribute.value <$> findAttr noteId "relation" name s.

(** The note owns a label of that name. *)
Definition hasLabel (noteId name : string) (s : Becca) : bool :=
  existsb (ownedAttr noteId "label" name) (attributes s).

(** The relation that lines 498-503 assign for the type of [opts]. *)
Definition launcherRelation (opts : Opts.t) : string * string :=
  if isType "note" (Opts.type opts) then ("target", str (Opts.targetNoteId opts))
  else if isType "script" (Opts.type opts) then ("script", str (Opts.scriptNoteId opts))
  else ("widget", str (Opts.widgetNoteId opts)).

(** The store holds the launcher in the state that [opts] asks for. *)
Definition reconciled (opts : Opts.t) (n : BNote.t) (s : Becca) : Prop :=
  getNote (launcherNoteId opts) s = Some n
  ∧ BNote.noteId n = launcherNoteId opts
  ∧ Some (BNote.title n) = Opts.title opts
  ∧ (∀ b, getParentBranches (launcherNoteId opts) s = [b] →
          BBranch.parentNoteId b = launcherParent opts)
  ∧ getRelationValue (launcherNoteId opts) (fst (launcherRelation opts)) s
      = Some (snd (launcherRelation opts))
  ∧ getLabelValue (launcherNoteId opts) "keyboardShortcut" s
      = (if truthyStr (Opts.keyboardShortcut opts) then Opts.keyboardShortcut opts else None)
  ∧ getLabelValue (launcherNoteId opts) "iconClass" s
      = (if truthyStr (Opts.icon opts) then Some ("bx " +:+ str (Opts.icon opts)) else None).

(** The launcher can be resolved: it exists, or its container does. *)
Definition resolvable (opts : Opts.t) (s : Becca) : Prop :=
  is_Some (getNote (launcherNoteId opts) s) ∨ is_Some (getNote (launcherParent opts) s).

Fixpoint allAlnum (s : string) : bool :=
  match s with
  | EmptyString => true
  | String c s' => isAlnum c && allAlnum s'
  end.

(** [s] holds six or more alphanumeric characters in a row. *)
Definition holdsAlnumRun (s : string) : Prop :=
  ∃ pre mid post, s = pre +:+ mid +:+ post
                  ∧ allAlnum mid = true ∧ (6 ≤ String.length mid)%nat.

(** The rule that the doc comment and the error message give for the id:
    only alphanumeric characters, at least six of them. *)
Definition documentedIdRule (s : string) : bool :=
  allAlnum s && (6 <=? String.length s)%nat.

(** ** Stores and arguments used as examples *)

Definition exampleNote (noteId title type mime : string) : BNote.t :=
  BNote.mk noteId title type mime (JsString "").

(** A store with a root note, a code note and the two launcher containers. *)
Definition exampleBecca : Becca :=
  mkBecca
    (<["root" := exampleNote "root" "root" "text" "text/html"]>
       (<["script1" := exampleNote "script1" "A script" "code" "application/javascript"]>
          (<["_lbVisibleLaunchers" := exampleNote "_lbVisibleLaunchers" "Visible Launchers" "launcher" ""]>
             (<["_lbAvailableLaunchers" := exampleNote "_lbAvailableLaunchers" "Available Launchers" "launcher" ""]> ∅))))
    [] [] 0.

(** [{id: 'calendar1', type: 'note', title: 'Calendar', isVisible: true,
     icon: 'bx-calendar', keyboardShortcut: 'ctrl+e', targetNoteId: 'root'}] *)
Definition exampleOpts : Opts.t :=
  Opts.mk (Some "calendar1") (Some "note") (Some "Calendar") true
    (Some "bx-calendar") (Some "ctrl+e") (Some "root") None None.

(** The same launcher with the optional fields left out and not visible. *)
Definition exampleOptsBare : Opts.t :=
  Opts.mk (Some "calendar1") (Some "note") (Some "Calendar") false
    None None (Some "root") None None.

(** The store once the bare launcher has been created in it. *)
Definition exampleBeccaWithLauncher : Becca :=
  snd (createOrUpdateLauncher exampleOptsBare exampleBecca).

(** An id that is not alphanumeric: it holds an exclamation mark. *)
Definition exampleOptsBadId : Opts.t :=
  Opts.mk (Some "abcdef!") (Some "note") (Some "Calendar") true
    None None (Some "root") None None.

(** A stand-in for the attribute service in the examples: it stores a
    label or a relation and refuses an attribute of any other type. *)
Definition exampleCreateAttribute (p : AttributeParams.t) : Eff Becca unit :=
  if bool_decide (AttributeParams.type p ∈ ["label"; "relation"]) then
    let* attributeId := newEntityId in
    modify (set_attributes (λ l, l ++ [BAttribute.mk attributeId (AttributeParams.noteId p)
      (AttributeParams.type p) (AttributeParams.name p) (str (AttributeParams.value p))
      (AttributeParams.isInheritable p)]))
  else throw (Error "Invalid attribute type").

(** [{}], the default of the [extraOptions] parameter. *)
Definition emptyExtraOptions : ExtraOptions.t :=
  ExtraOptions.mk None None None None None JsUndefined false None.

(** [{json: true}] *)
Definition exampleJsonOptions : ExtraOptions.t :=
  ExtraOptions.mk None None None None None (JsBool true) false None.

(** [{attributes: [{type: 'label', name: 'a', value: '1'},
                   {type: 'bogus', name: 'b'},
                   {type: 'label', name: 'c'}]}]: the second attribute
    is refused by the stand-in. *)
Definition exampleFailingOptions : ExtraOptions.t :=
  ExtraOptions.mk None None None None None JsUndefined false
    (Some [AttrSpec.mk "label" "a" (Some "1") JsUndefined;
           AttrSpec.mk "bogus" "b" None JsUndefined;
           AttrSpec.mk "label" "c" None JsUndefined]).

(** An object that holds already what [createNote('root', 'T', 'c', ...)]
    is about to write. *)
Definition exampleSettledOptions : ExtraOptions.t :=
  ExtraOptions.mk (Some "root") (Some "T") (Some (JsString "c")) (Some "text")
    (Some "text/html") JsUndefined false None.

(** [{b: 2, a: ['x', null, {}]}] *)
Definition exampleObject : JsValue :=
  JsObject [("b", JsNumber 2); ("a", JsArray [JsString "x"; JsNull; JsObject []])].

(** The kinds of the spec's taxonomy, on the errors of the code: a
    validation error is thrown by a check that the operation makes itself;
    what the runtime raises on dereferencing a missing entity is of the
    reference-error kind. *)
Definition isValidationError (e : JsError) : bool :=
  match e with
  | Error _ => true
  | TypeError _ => false
  end.

(** [log] called once for each message of [ms], in that order. *)
Definition logAll (ms : list JsValue) (a : BackendScriptApi) : BackendScriptApi :=
  foldl (λ a message, log message a) a ms.

(** The messages pending under [key]. *)
Definition pending (key : string) (a : BackendScriptApi) : list JsValue :=
  default [] (logMessages a !! key).

(** A flush is scheduled for [key]. *)
Definition scheduled (key : string) (a : BackendScriptApi) : bool :=
  match logSpacedUpdates a !! key with
  | Some su => changed su
  | None => false
  end.

(** What [log] maintains: the timer kept under a key flushes that key, and
    a flush is scheduled only while messages are pending under it. *)
Definition logInv (a : BackendScriptApi) : Prop :=
  ∀ k su, logSpacedUpdates a !! k = Some su →
    updaterNoteId su = k
    ∧ (changed su = true → ∃ m ms, logMessages a !! k = Some (m :: ms)).

Definition exampleStartNote : BNote.t :=
  exampleNote "n1" "Start" "code" "application/javascript".

Definition exampleOtherNote : BNote.t :=
  exampleNote "n2" "Included" "code" "application/javascript".

Definition exampleMessages : list JsValue :=
  [JsString "one"; JsString "two"; JsString "three"; JsString "four"; JsString "five"].

(** An instance started from note [n1], now running in [n2], on which
    [log] has been called five times. *)
Definition exampleApi : BackendScriptApi :=
  logAll exampleMessages (newBackendScriptApi exampleOtherNote exampleStartNote).

(** ** Further operations of the script API *)

(** Lines 181-186. *)
Definition createTextNote (parentNoteId title : string) (content : JsValue)
  : Eff Becca (BNote.t * BBranch.t) :=
  createNewNote (NoteParams.mk None parentNoteId title (contentOrDefault content) "text" None).

(** Lines 198-204; the default of the [content] parameter is the empty
    object. *)
Definition createDataNote (parentNoteId title : string) (content : JsValue)
  : Eff Becca (BNote.t * BBranch.t) :=
  let content := match content with JsUndefined => JsObject [] | _ => content end in
  createNewNote (NoteParams.mk None parentNoteId title (JSON_stringify content) "code"
                   (Some "application/json")).

(** [o.key === undefined], on an object kept as a map: the key is missing,
    or holds [undefined]. *)
Definition isUndefined (o : option JsValue) : bool :=
  match o with
  | None | Some JsUndefined => true
  | Some _ => false
  end.

(** Lines 90-96: the two flags of the search are set where the caller left
    them undefined; the assignments are made on the caller's object. *)
Definition defaultSearchParams (searchParams : gmap string JsValue) : gmap string JsValue :=
  let searchParams :=
    if isUndefined (searchParams !! "includeArchivedNotes")
    then <["includeArchivedNotes" := JsBool true]> searchParams else searchParams in
  if isUndefined (searchParams !! "ignoreHoistedNote")
  then <["ignoreHoistedNote" := JsBool true]> searchParams else searchParams.

Module SearchResult.
Record t : Type := mk { noteId : string }.
End SearchResult.

Section Search.

(** [searchService.findResultsWithQuery] and [becca.getNotes] (absent from
    src; the spec leaves the search out of scope): parameters that read the
    store and may throw.  The search is handed the parameters object that
    [SearchContext] wraps. *)
Variable findResultsWithQuery :
  string → gmap string JsValue → Becca → JsError + list SearchResult.t.
Variable getNotes : list string → Becca → JsError + list BNote.t.

(** Lines 89-102.  The outcome holds the caller's [searchParams] object as
    the call leaves it. *)
Definition searchForNotes (query : string) (searchParams : gmap string JsValue) (s : Becca)
  : (JsError + list BNote.t) * gmap string JsValue :=
  let searchParams := defaultSearchParams searchParams in
  (match findResultsWithQuery query searchParams s with
   | inl e => inl e
   | inr results => getNotes (SearchResult.noteId <$> results) s
   end,
   searchParams).

(** Lines 113-117; [None] is [null]. *)
Definition searchForNote (query : string) (searchParams : gmap string JsValue) (s : Becca)
  : (JsError + option BNote.t) * gmap string JsValue :=
  let '(notes, searchParams) := searchForNotes query searchParams s in
  (match notes with
   | inl e => inl e
   | inr notes => inr (head notes)
   end,
   searchParams).

End Search.

(** A property of the instance: a value that the constructor was given
    ([None] is [undefined]), or a member that the constructor defines
    itself, known here by its name. *)
Inductive Member (V : Type) : Type :=
  | Given (v : option V)
  | Own (name : string).
Arguments Given {V} v.
Arguments Own {V} name.

(** The members that the constructor assigns after the loop over
    [apiParams], in source order (lines 45-539). *)
Definition apiMembers : list string :=
  ["axios"; "dayjs"; "xml2js"; "getInstanceName"; "getNote"; "getBranch"; "getAttribute";
   "searchForNotes"; "searchForNote"; "getNotesWithLabel"; "getNoteWithLabel";
   "ensureNoteIsPresentInParent"; "ensureNoteIsAbsentFromParent"; "toggleNoteInParent";
   "createTextNote"; "createDataNote"; "createNewNote"; "createNote";
   "logMessages"; "logSpacedUpdates"; "log";
   "getRootCalendarNote"; "getDayNote"; "getTodayNote"; "getWeekNote"; "getMonthNote";
   "getYearNote"; "sortNotes"; "setNoteToParent"; "transactional"; "randomString";
   "escapeHtml"; "unescapeHtml"; "sql"; "getAppInfo"; "createOrUpdateLauncher";
   "exportSubtreeToZipFile"; "__private"].

(** Lines 29-539, the property table that the constructor leaves on
    [this].  The loop of lines 37-39 assigns every key of [apiParams]: the
    table is overridden by [apiParams] where both have the key. *)
Definition constructor {V : Type} (currentNote : V) (apiParams : gmap string V)
  : gmap string (Member V) :=
  let this : gmap string (Member V) := ∅ in
  let this := <["startNote" := Given (apiParams !! "startNote")]> this in
  let this := <["currentNote" := Given (Some currentNote)]> this in
  let this := <["originEntity" := Given (apiParams !! "originEntity")]> this in
  let this := ((λ v, Given (Some v)) <$> apiParams) ∪ this in
  foldl (λ this name, <[name := Own name]> this) this apiMembers.

(** [opts] with [isVisible] negated. *)
Definition flipVisible (opts : Opts.t) : Opts.t :=
  Opts.mk (Opts.id opts) (Opts.type opts) (Opts.title opts) (negb (Opts.isVisible opts))
    (Opts.icon opts) (Opts.keyboardShortcut opts) (Opts.targetNoteId opts)
    (Opts.scriptNoteId opts) (Opts.widgetNoteId opts).

(** Every character of [s] is white space. *)
Fixpoint allWhiteSpace (s : string) : bool :=
  match s with
  | EmptyString => true
  | String c s' => isWhiteSpace c && allWhiteSpace s'
  end.

(** Two stores agree outside note [i]: on every other note, and on the
    attributes of every other note, in their order. *)
Definition agreeOutside (i : string) (s s' : Becca) : Prop :=
  (∀ k, k ≠ i → notes s' !! k = notes s !! k)
  ∧ filter (λ a, BAttribute.noteId a ≠ i) (attributes s')
    = filter (λ a, BAttribute.noteId a ≠ i) (attributes s).

(** The messages of the [Log] events of a trace, in order. *)
Definition logged (evs : list ApiEvent) : list JsValue :=
  evs ≫= (λ ev, match ev with Log m => [m] | _ => [] end).

(** The messages that the client messages hold, in order. *)
Definition delivered (sent : list WsMessage.t) : list JsValue :=
  sent ≫= (λ w, default [] (WsMessage.messages w)).

(** What the guards of [createOrUpdateLauncher] ask of [opts], said
    without the pattern and without [trim]. *)
Definition acceptedOpts (opts : Opts.t) : Prop :=
  (∃ i, Opts.id opts = Some i ∧ holdsAlnumRun i)
  ∧ (∃ t, Opts.title opts = Some t ∧ allWhiteSpace t = false)
  ∧ ((Opts.type opts = Some "note" ∧ truthyStr (Opts.targetNoteId opts) = true)
     ∨ (Opts.type opts = Some "script" ∧ truthyStr (Opts.scriptNoteId opts) = true)
     ∨ (Opts.type opts = Some "customWidget" ∧ truthyStr (Opts.widgetNoteId opts) = true)).

(** The launcher of [exampleOpts] turned into a script launcher:
    [{id: 'calendar1', type: 'script', title: 'Calendar', isVisible: true,
      scriptNoteId: 'script1'}] *)
Definition exampleOptsScript : Opts.t :=
  Opts.mk (Some "calendar1") (Some "script") (Some "Calendar") true
    None None None (Some "script1") None.




(** [{title: 'other', content: 'other', type: 'book', mime: 'x/y'}]: an
    object on which the caller has set fields that the call writes. *)
Definition exampleStrayOptions : ExtraOptions.t :=
  ExtraOptions.mk None (Some "other") (Some (JsString "other")) (Some "book") (Some "x/y")
    JsUndefined false None.




(** Every character of [s] is an ASCII character.  On such a string
    [trim] removes what [String.prototype.trim] removes; the white space
    beyond ASCII (U+00A0, U+FEFF, the line and paragraph separators and the
    space separators of Unicode) is not known to [isWhiteSpace]. *)
Fixpoint isAsciiString (s : string) : bool :=
  match s with
  | EmptyString => true
  | String c s' => (Ascii.nat_of_ascii c <? 128)%nat && isAsciiString s'
  end.


(** * Properties *)

(** ** The store monad *)

Lemma becca_eta s : mkBecca (notes s) (branches s) (attributes s) (nextId s) = s.
Proof. by destruct s. Qed.

Lemma bind_inr {S A B} (m : Eff S A) (k : A → Eff S B) s a s' :
  m s = (inr a, s') → bind m k s = k a s'.
Proof. unfold bind. by intros ->. Qed.


(** ** Attribute lists *)

Lemma ownedAttr_set_value i t n v a :
  ownedAttr i t n (BAttribute.set_value v a) = ownedAttr i t n a.
Proof. reflexivity. Qed.

Lemma ownedAttr_disjoint i t n i' t' n' a :
  (i, t, n) ≠ (i', t', n') → ownedAttr i t n a = true → ownedAttr i' t' n' a = false.
Proof.
  unfold ownedAttr. intros Hne H.
  repeat (apply andb_prop in H as [H ?]).
  apply bool_decide_eq_true in H.
  repeat match goal with X : bool_decide _ = true |- _ => apply bool_decide_eq_true in X end.
  subst. repeat case_bool_decide; try reflexivity.
  exfalso. apply Hne. congruence.
Qed.

Lemma set_value_same a : BAttribute.set_value (BAttribute.value a) a = a.
Proof. by destruct a. Qed.

Section AttributeLists.
Variables p q : BAttribute.t → bool.
Hypothesis p_stable : ∀ v a, p (BAttribute.set_value v a) = p a.
Hypothesis q_stable : ∀ v a, q (BAttribute.set_value v a) = q a.
Hypothesis apart : ∀ a, p a = true → q a = false.

Lemma find_updateFirst_same v l :
  List.find p (updateFirst p v l) = BAttribute.set_value v <$> List.find p l.
Proof.
  induction l as [|a l IH]; simpl; [done|].
  destruct (p a) eqn:E; simpl.
  - by rewrite p_stable, E.
  - by rewrite E.
Qed.

Lemma find_updateFirst_other v l :
  List.find q (updateFirst p v l) = List.find q l.
Proof.
  induction l as [|a l IH]; simpl; [done|].
  destruct (p a) eqn:E; simpl.
  - by rewrite q_stable, (apart _ E).
  - by rewrite IH.
Qed.

Lemma updateFirst_id v l a :
  List.find p l = Some a → BAttribute.value a = v → updateFirst p v l = l.
Proof.
  induction l as [|b l IH]; simpl; [done|].
  destruct (p b) eqn:E.
  - intros [= ->] <-. by rewrite set_value_same.
  - intros H1 H2. by rewrite IH.
Qed.

Lemma find_snoc l a :
  List.find p (l ++ [a]) =
    match List.find p l with
    | Some b => Some b
    | None => if p a then Some a else None
    end.
Proof.
  induction l as [|b l IH]; simpl; [done|].
  by destruct (p b).
Qed.

Lemma find_filter_same l :
  List.find p (filter (λ a, p a = false) l) = None.
Proof.
  induction l as [|a l IH]; [done|].
  rewrite filter_cons. case_decide as E; simpl; [by rewrite E|done].
Qed.

Lemma find_filter_other l :
  List.find q (filter (λ a, p a = false) l) = List.find q l.
Proof.
  induction l as [|a l IH]; [done|].
  rewrite filter_cons. case_decide as E; simpl.
  - by rewrite IH.
  - apply not_false_is_true in E. by rewrite (apart _ E).
Qed.

Lemma filter_id l :
  List.find p l = None → filter (λ a, p a = false) l = l.
Proof.
  induction l as [|a l IH]; simpl; [done|].
  destruct (p a) eqn:E; [done|]. intros H.
  rewrite filter_cons, decide_True by done. by rewrite IH.
Qed.

Lemma existsb_find l : existsb p l = bool_decide (is_Some (List.find p l)).
Proof.
  induction l as [|a l IH]; simpl; [done|].
  by destruct (p a).
Qed.
End AttributeLists.

(** ** Setting and removing attributes *)

Lemma setAttribute_run i t n v s :
  ∃ s', setAttribute i t n v s = (inr tt, s')
        ∧ notes s' = notes s ∧ branches s' = branches s
        ∧ BAttribute.value <$> findAttr i t n s' = Some v
        ∧ ∀ i' t' n', (i, t, n) ≠ (i', t', n') → findAttr i' t' n' s' = findAttr i' t' n' s.
Proof.
  unfold setAttribute, findAttr, bind, get, modify, newEntityId.
  rewrite existsb_find.
  destruct (List.find (ownedAttr i t n) (attributes s)) as [a|] eqn:E; simpl.
  - eexists; split; [reflexivity|]. simpl. repeat split.
    + rewrite find_updateFirst_same by apply ownedAttr_set_value. by rewrite E.
    + intros i' t' n' Hne. apply find_updateFirst_other.
      * intros; apply ownedAttr_set_value.
      * intros b. by apply ownedAttr_disjoint.
  - eexists; split; [reflexivity|]. simpl. repeat split.
    + rewrite find_snoc, E. unfold ownedAttr; simpl. by rewrite !bool_decide_eq_true_2.
    + intros i' t' n' Hne. rewrite find_snoc.
      destruct (List.find (ownedAttr i' t' n') (attributes s)); [done|].
      rewrite (ownedAttr_disjoint i t n i' t' n'); [done|done|].
      unfold ownedAttr; simpl. by rewrite !bool_decide_eq_true_2.
Qed.

Lemma setAttribute_noop i t n v s :
  BAttribute.value <$> findAttr i t n s = Some v → setAttribute i t n v s = (inr tt, s).
Proof.
  unfold setAttribute, findAttr, bind, get, modify. intros H.
  rewrite existsb_find.
  destruct (List.find (ownedAttr i t n) (attributes s)) as [a|] eqn:E; [|done].
  simpl in *. injection H as H. unfold set_attributes.
  rewrite (updateFirst_id _ _ _ _ E H). by rewrite becca_eta.
Qed.

Lemma removeLabel_run i n s :
  ∃ s', removeLabel i n s = (inr tt, s')
        ∧ notes s' = notes s ∧ branches s' = branches s
        ∧ findAttr i "label" n s' = None
        ∧ ∀ i' t' n', (i, "label", n) ≠ (i', t', n') → findAttr i' t' n' s' = findAttr i' t' n' s.
Proof.
  unfold removeLabel, findAttr, modify.
  eexists; split; [reflexivity|]. simpl. repeat split.
  - apply find_filter_same.
  - intros i' t' n' Hne. apply find_filter_other. intros b. by apply ownedAttr_disjoint.
Qed.

Lemma removeLabel_noop i n s :
  findAttr i "label" n s = None → removeLabel i n s = (inr tt, s).
Proof.
  unfold removeLabel, findAttr, modify, set_attributes. intros H.
  rewrite filter_id by done. by rewrite becca_eta.
Qed.

(** ** Validation *)

Lemma truthyStr_Some o : truthyStr o = true → ∃ v, o = Some v ∧ v ≠ "".
Proof.
  destruct o as [v|]; simpl; [|done]. intros H. exists v. split; [done|].
  intros ->. done.
Qed.

(** Walks down the guards that a passed validation has gone through. *)
Ltac passed_guards H :=
  repeat match type of H with
         | (if ?b then _ else _) = None => destruct b eqn:?; [discriminate|]
         end;
  repeat match goal with
         | X : negb _ = false |- _ => apply negb_false_iff in X
         end.

Lemma validate_ok opts :
  validateLauncherOpts opts = None →
  (∃ i, Opts.id opts = Some i ∧ matchesIdPattern i = true)
  ∧ (∃ t, Opts.title opts = Some t)
  ∧ (Opts.type opts = Some "note" ∨ Opts.type opts = Some "script"
     ∨ Opts.type opts = Some "customWidget").
Proof.
  unfold validateLauncherOpts. intros H. passed_guards H.
  repeat split.
  - destruct (truthyStr_Some _ Heqb) as (i & Hi & _). exists i. split; [done|].
    by rewrite Hi in Heqb0.
  - destruct (Opts.title opts) as [t|]; [by exists t|done].
  - destruct (truthyStr_Some _ Heqb1) as (ty & Hty & _). rewrite Hty in *. simpl in *.
    apply bool_decide_eq_true in Heqb2.
    apply elem_of_cons in Heqb2 as [->|Hty2]; [by left|].
    apply elem_of_cons in Hty2 as [->|Hty2]; [by right; left|].
    apply elem_of_cons in Hty2 as [->|Hty2]; [by right; right|].
    by apply elem_of_nil in Hty2.
Qed.

(** A failed validation leaves the store as it was. *)
Lemma validation_failure_no_mutation opts e s :
  validateLauncherOpts opts = Some e → createOrUpdateLauncher opts s = (inl e, s).
Proof. unfold createOrUpdateLauncher. by intros ->. Qed.

(** ** The steps of the launcher reconciliation *)

Lemma createNewNote_run p s parent :
  getNote (NoteParams.parentNoteId p) s = Some parent →
  ∃ note branch s',
    createNewNote p s = (inr (note, branch), s')
    ∧ notes s' = <[BNote.noteId note := note]> (notes s)
    ∧ branches s' = branches s ++ [branch]
    ∧ attributes s' = attributes s
    ∧ BNote.title note = NoteParams.title p
    ∧ BNote.type note = NoteParams.type p
    ∧ BNote.mime note = deriveMime (NoteParams.type p) (NoteParams.mime p)
    ∧ BNote.content note = NoteParams.content p
    ∧ (∀ i, NoteParams.noteId p = Some i → BNote.noteId note = i)
    ∧ BBranch.noteId branch = BNote.noteId note
    ∧ BBranch.parentNoteId branch = NoteParams.parentNoteId p.
Proof.
  intros Hp. unfold createNewNote, bind, get. rewrite Hp.
  destruct (NoteParams.noteId p) as [i|] eqn:Ei; simpl;
    (do 3 eexists; split; [reflexivity|]; simpl; repeat split; congruence).
Qed.

Lemma wfBecca_insert s n :
  wfBecca s → wfBecca (set_notes (insert (BNote.noteId n) n) s).
Proof.
  intros Hwf k m. simpl. rewrite lookup_insert. case_decide.
  - intros [= <-]. done.
  - apply Hwf.
Qed.

Lemma wfBecca_notes s s' : notes s' = notes s → wfBecca s → wfBecca s'.
Proof. unfold wfBecca. by intros ->. Qed.

Lemma resolveLauncher_found opts s n :
  getNote (launcherNoteId opts) s = Some n → resolveLauncher opts s = (inr n, s).
Proof. unfold resolveLauncher, bind, get. by intros ->. Qed.

Lemma resolveLauncher_created opts s parent :
  getNote (launcherNoteId opts) s = None →
  getNote (launcherParent opts) s = Some parent →
  ∃ n b s', resolveLauncher opts s = (inr n, s')
    ∧ BNote.noteId n = launcherNoteId opts
    ∧ notes s' = <[launcherNoteId opts := n]> (notes s)
    ∧ branches s' = branches s ++ [b]
    ∧ BBranch.noteId b = launcherNoteId opts
    ∧ BBranch.parentNoteId b = launcherParent opts
    ∧ attributes s' = attributes s.
Proof.
  intros Hn Hp. unfold resolveLauncher, bind, get. rewrite Hn.
  unfold createLauncher.
  destruct (createNewNote_run
    (NoteParams.mk (Some (launcherNoteId opts)) (launcherParent opts) "" (JsString "")
       "launcher" None) s parent Hp)
    as (note & branch & s' & Hrun & Hnotes & Hbr & Hat & _ & _ & _ & _ & Hid & Hbn & Hbp).
  rewrite Hrun. simpl in *. specialize (Hid _ eq_refl).
  exists note, branch, s'. rewrite Hid in *. by repeat split.
Qed.

Lemma resolveLauncher_missing_parent opts s :
  getNote (launcherNoteId opts) s = None →
  getNote (launcherParent opts) s = None →
  ∃ e, resolveLauncher opts s = (inl e, s).
Proof.
  intros Hn Hp. unfold resolveLauncher, createLauncher, createNewNote, bind, get.
  rewrite Hn. simpl. rewrite Hp. by eexists.
Qed.

Lemma resolveLauncher_spec opts s n s' :
  wfBecca s → resolveLauncher opts s = (inr n, s') →
  wfBecca s' ∧ getNote (launcherNoteId opts) s' = Some n
  ∧ BNote.noteId n = launcherNoteId opts ∧ attributes s' = attributes s.
Proof.
  intros Hwf Hrun.
  destruct (getNote (launcherNoteId opts) s) as [m|] eqn:En.
  - rewrite (resolveLauncher_found _ _ _ En) in Hrun. injection Hrun as <- <-.
    split; [done|]. split; [done|]. split; [by apply Hwf|done].
  - destruct (getNote (launcherParent opts) s) as [parent|] eqn:Ep.
    + destruct (resolveLauncher_created _ _ _ En Ep)
        as (n0 & b & s0 & Hrun0 & Hid & Hnotes & _ & _ & _ & Hat).
      rewrite Hrun0 in Hrun. injection Hrun as <- <-.
      split; [|split; [unfold getNote; rewrite Hnotes; apply lookup_insert_eq|done]].
      intros k m. rewrite Hnotes, lookup_insert. case_decide.
      * intros [= <-]. congruence.
      * apply Hwf.
    + destruct (resolveLauncher_missing_parent _ _ En Ep) as [e He]. congruence.
Qed.

Lemma reconcileTitle_run opts n s t :
  Opts.title opts = Some t → wfBecca s → getNote (BNote.noteId n) s = Some n →
  ∃ n' s', reconcileTitle opts n s = (inr n', s')
    ∧ wfBecca s' ∧ getNote (BNote.noteId n) s' = Some n'
    ∧ BNote.noteId n' = BNote.noteId n ∧ BNote.title n' = t
    ∧ branches s' = branches s ∧ attributes s' = attributes s.
Proof.
  intros Ht Hwf Hn. unfold reconcileTitle. rewrite Ht. case_bool_decide as E.
  - unfold saveTitle, bind, modify. simpl. do 2 eexists. split; [reflexivity|].
    repeat split; simpl.
    + apply (wfBecca_insert s (BNote.set_title t n) Hwf).
    + unfold getNote. simpl. apply lookup_insert_eq.
  - exists n, s. unfold ret. repeat split; try done.
    first [ congruence | apply dec_stable in E; congruence ].
Qed.

Lemma reconcileTitle_noop opts n s :
  Some (BNote.title n) = Opts.title opts → reconcileTitle opts n s = (inr n, s).
Proof.
  intros H. unfold reconcileTitle. by rewrite bool_decide_eq_false_2 by (by intros ?).
Qed.

Lemma getParentBranches_fmap (f : BBranch.t → BBranch.t) i (l : list BBranch.t) :
  (∀ b, BBranch.noteId (f b) = BBranch.noteId b) →
  filter (λ b, BBranch.noteId b = i) (f <$> l) = f <$> filter (λ b, BBranch.noteId b = i) l.
Proof.
  intros Hf. induction l as [|b l IH]; [done|].
  rewrite fmap_cons, !filter_cons, Hf. case_decide; by rewrite ?fmap_cons, IH.
Qed.

Lemma reconcileParent_run opts n s :
  ∃ s', reconcileParent opts n s = (inr tt, s')
    ∧ notes s' = notes s ∧ attributes s' = attributes s ∧ nextId s' = nextId s
    ∧ BBranch.branchId <$> branches s' = BBranch.branchId <$> branches s
    ∧ ((∃ b, getParentBranches (BNote.noteId n) s = [b]
             ∧ BBranch.parentNoteId b ≠ launcherParent opts
             ∧ getParentBranches (BNote.noteId n) s'
                 = [BBranch.set_parentNoteId (launcherParent opts) b]
             ∧ ∀ b', b' ∈ branches s → BBranch.branchId b' ≠ BBranch.branchId b →
                     b' ∈ branches s')
       ∨ ((¬ ∃ b, getParentBranches (BNote.noteId n) s = [b]
                  ∧ BBranch.parentNoteId b ≠ launcherParent opts)
          ∧ s' = s)).
Proof.
  unfold reconcileParent, bind, get.
  destruct (getParentBranches (BNote.noteId n) s) as [|b [|b2 bs]] eqn:E.
  - exists s. unfold ret. repeat split; try done. right. split; [|done]. by intros (b & ? & _).
  - unfold when. case_bool_decide as Hp.
    + unfold moveBranchToNote, modify. eexists. split; [reflexivity|]. simpl.
      repeat split.
      * rewrite <- list_fmap_compose. apply list_fmap_ext. intros ? b' _. simpl.
        by case_decide.
      * left. exists b. repeat split; try done.
        -- unfold getParentBranches in *. simpl.
           rewrite getParentBranches_fmap by (intros b'; by case_decide).
           rewrite E. simpl. by rewrite decide_True.
        -- intros b' Hin Hne. apply list_elem_of_fmap. exists b'. by rewrite decide_False.
    + exists s. unfold ret. repeat split; try done. right. split; [|done].
      intros (b' & [= <-] & Hne). by apply Hne, dec_stable.
  - exists s. unfold ret. repeat split; try done. right. split; [|done]. by intros (b' & ? & _).
Qed.

Lemma reconcileParent_noop opts n s :
  (∀ b, getParentBranches (BNote.noteId n) s = [b] →
        BBranch.parentNoteId b = launcherParent opts) →
  reconcileParent opts n s = (inr tt, s).
Proof.
  intros H. unfold reconcileParent, bind, get.
  destruct (getParentBranches (BNote.noteId n) s) as [|b [|b2 bs]] eqn:E; try done.
  unfold when. by rewrite bool_decide_eq_false_2 by (intros Hne; by apply Hne, H).
Qed.

Lemma reconcileRelation_run opts n s :
  (Opts.type opts = Some "note" ∨ Opts.type opts = Some "script"
   ∨ Opts.type opts = Some "customWidget") →
  ∃ s', reconcileRelation opts n s = (inr tt, s')
    ∧ notes s' = notes s ∧ branches s' = branches s
    ∧ getRelationValue (BNote.noteId n) (fst (launcherRelation opts)) s'
        = Some (snd (launcherRelation opts))
    ∧ ∀ nm, findAttr (BNote.noteId n) "label" nm s' = findAttr (BNote.noteId n) "label" nm s.
Proof.
  intros Hty. unfold reconcileRelation, launcherRelation, getRelationValue, setRelation.
  destruct Hty as [-> | [-> | ->]]; simpl;
    match goal with
    | |- context [setAttribute ?i ?t ?nm ?v s] =>
        destruct (setAttribute_run i t nm v s) as (s' & Hrun & Hn & Hb & Hv & Hother)
    end;
    exists s'; (split; [done|]); (split; [done|]); (split; [done|]); (split; [done|]);
    intros nm; apply Hother; congruence.
Qed.

Lemma reconcileRelation_noop opts n s :
  (Opts.type opts = Some "note" ∨ Opts.type opts = Some "script"
   ∨ Opts.type opts = Some "customWidget") →
  getRelationValue (BNote.noteId n) (fst (launcherRelation opts)) s
    = Some (snd (launcherRelation opts)) →
  reconcileRelation opts n s = (inr tt, s).
Proof.
  intros Hty. unfold reconcileRelation, launcherRelation, getRelationValue, setRelation.
  destruct Hty as [-> | [-> | ->]]; simpl; apply setAttribute_noop.
Qed.

Lemma reconcileShortcut_run opts n s :
  ∃ s', reconcileShortcut opts n s = (inr tt, s')
    ∧ notes s' = notes s ∧ branches s' = branches s
    ∧ getLabelValue (BNote.noteId n) "keyboardShortcut" s'
        = (if truthyStr (Opts.keyboardShortcut opts) then Opts.keyboardShortcut opts else None)
    ∧ ∀ t nm, (t, nm) ≠ ("label", "keyboardShortcut") →
              findAttr (BNote.noteId n) t nm s' = findAttr (BNote.noteId n) t nm s.
Proof.
  unfold reconcileShortcut, getLabelValue, setLabel.
  destruct (truthyStr (Opts.keyboardShortcut opts)) eqn:E.
  - destruct (truthyStr_Some _ E) as (k & -> & _). simpl.
    destruct (setAttribute_run (BNote.noteId n) "label" "keyboardShortcut" k s)
      as (s' & Hrun & Hn & Hb & Hv & Hother).
    exists s'. repeat split; try done. intros t nm Hne. apply Hother. congruence.
  - destruct (removeLabel_run (BNote.noteId n) "keyboardShortcut" s)
      as (s' & Hrun & Hn & Hb & Hv & Hother).
    exists s'. repeat split; try done.
    + by rewrite Hv.
    + intros t nm Hne. apply Hother. congruence.
Qed.

Lemma reconcileShortcut_noop opts n s :
  getLabelValue (BNote.noteId n) "keyboardShortcut" s
    = (if truthyStr (Opts.keyboardShortcut opts) then Opts.keyboardShortcut opts else None) →
  reconcileShortcut opts n s = (inr tt, s).
Proof.
  unfold reconcileShortcut, getLabelValue, setLabel.
  destruct (truthyStr (Opts.keyboardShortcut opts)) eqn:E.
  - destruct (truthyStr_Some _ E) as (k & -> & _). simpl. apply setAttribute_noop.
  - intros H. apply removeLabel_noop.
    by destruct (findAttr (BNote.noteId n) "label" "keyboardShortcut" s).
Qed.

Lemma reconcileIcon_run opts n s :
  ∃ s', reconcileIcon opts n s = (inr tt, s')
    ∧ notes s' = notes s ∧ branches s' = branches s
    ∧ getLabelValue (BNote.noteId n) "iconClass" s'
        = (if truthyStr (Opts.icon opts) then Some ("bx " +:+ str (Opts.icon opts)) else None)
    ∧ ∀ t nm, (t, nm) ≠ ("label", "iconClass") →
              findAttr (BNote.noteId n) t nm s' = findAttr (BNote.noteId n) t nm s.
Proof.
  unfold reconcileIcon, getLabelValue, setLabel.
  destruct (truthyStr (Opts.icon opts)) eqn:E.
  - destruct (setAttribute_run (BNote.noteId n) "label" "iconClass"
                ("bx " +:+ str (Opts.icon opts)) s)
      as (s' & Hrun & Hn & Hb & Hv & Hother).
    exists s'. repeat split; try done. intros t nm Hne. apply Hother. congruence.
  - destruct (removeLabel_run (BNote.noteId n) "iconClass" s)
      as (s' & Hrun & Hn & Hb & Hv & Hother).
    exists s'. repeat split; try done.
    + by rewrite Hv.
    + intros t nm Hne. apply Hother. congruence.
Qed.

Lemma reconcileIcon_noop opts n s :
  getLabelValue (BNote.noteId n) "iconClass" s
    = (if truthyStr (Opts.icon opts) then Some ("bx " +:+ str (Opts.icon opts)) else None) →
  reconcileIcon opts n s = (inr tt, s).
Proof.
  unfold reconcileIcon, getLabelValue, setLabel.
  destruct (truthyStr (Opts.icon opts)) eqn:E.
  - apply setAttribute_noop.
  - intros H. apply removeLabel_noop.
    by destruct (findAttr (BNote.noteId n) "label" "iconClass" s).
Qed.

(** ** The whole reconciliation *)

Lemma getParentBranches_branches i s s' :
  branches s' = branches s → getParentBranches i s' = getParentBranches i s.
Proof. unfold getParentBranches. by intros ->. Qed.

(** Once the launcher is at hand, the remaining steps all succeed and leave
    it in the state asked for. *)
Lemma createOrUpdateLauncher_resolved opts s n0 s0 :
  validateLauncherOpts opts = None → wfBecca s →
  resolveLauncher opts s = (inr n0, s0) →
  ∃ n s1 s2 s',
    reconcileTitle opts n0 s0 = (inr n, s1)
    ∧ reconcileParent opts n s1 = (inr tt, s2)
    ∧ branches s1 = branches s0 ∧ branches s' = branches s2
    ∧ BNote.noteId n = launcherNoteId opts
    ∧ createOrUpdateLauncher opts s = (inr n, s')
    ∧ reconciled opts n s' ∧ wfBecca s'.
Proof.
  intros Hvalid Hwf Hres.
  destruct (validate_ok _ Hvalid) as ((i & Hi & _) & (t & Ht) & Hty).
  destruct (resolveLauncher_spec _ _ _ _ Hwf Hres) as (Hwf0 & Hget0 & Hid0 & _).
  rewrite <- Hid0 in Hget0.
  destruct (reconcileTitle_run opts n0 s0 t Ht Hwf0 Hget0)
    as (n & s1 & Hrun1 & Hwf1 & Hget1 & Hid1 & Htitle & Hb1 & _).
  destruct (reconcileParent_run opts n s1) as (s2 & Hrun2 & Hn2 & _ & _ & _ & Hmove).
  destruct (reconcileRelation_run opts n s2 Hty) as (s3 & Hrun3 & Hn3 & Hb3 & Hrel & _).
  destruct (reconcileShortcut_run opts n s3) as (s4 & Hrun4 & Hn4 & Hb4 & Hkb & Hother4).
  destruct (reconcileIcon_run opts n s4) as (s5 & Hrun5 & Hn5 & Hb5 & Hicon & Hother5).
  assert (Hid : BNote.noteId n = launcherNoteId opts) by congruence.
  exists n, s1, s2, s5. repeat split; try done.
  - congruence.
  - unfold createOrUpdateLauncher. rewrite Hvalid.
    rewrite (bind_inr _ _ _ _ _ Hres), (bind_inr _ _ _ _ _ Hrun1),
      (bind_inr _ _ _ _ _ Hrun2), (bind_inr _ _ _ _ _ Hrun3),
      (bind_inr _ _ _ _ _ Hrun4), (bind_inr _ _ _ _ _ Hrun5). done.
  - unfold getNote in *. rewrite Hn5, Hn4, Hn3, Hn2. congruence.
  - congruence.
  - intros b Hb.
    rewrite (getParentBranches_branches _ s2 s5) in Hb by congruence.
    rewrite <- Hid in Hb.
    destruct Hmove as [(b0 & _ & _ & Hafter & _) | (Hnot & ->)].
    + rewrite Hafter in Hb. by injection Hb as <-.
    + destruct (decide (BBranch.parentNoteId b = launcherParent opts)) as [|Hne]; [done|].
      exfalso. apply Hnot. by exists b.
  - unfold getRelationValue in *. rewrite <- Hid.
    rewrite Hother5, Hother4; [done|intros [=]..].
  - unfold getLabelValue in *. rewrite <- Hid. by rewrite Hother5.
  - unfold getLabelValue in *. by rewrite <- Hid.
  - apply (wfBecca_notes s1); [congruence|done].
Qed.

(** On a store that already holds the launcher as asked for, the call
    changes nothing. *)
Lemma createOrUpdateLauncher_fixed opts n s :
  validateLauncherOpts opts = None → reconciled opts n s →
  createOrUpdateLauncher opts s = (inr n, s).
Proof.
  intros Hvalid (Hget & Hid & Htitle & Hbr & Hrel & Hkb & Hicon).
  destruct (validate_ok _ Hvalid) as (_ & _ & Hty).
  rewrite <- Hid in Hbr, Hrel, Hkb, Hicon.
  unfold createOrUpdateLauncher. rewrite Hvalid.
  rewrite (bind_inr _ _ _ _ _ (resolveLauncher_found _ _ _ Hget)).
  rewrite (bind_inr _ _ _ _ _ (reconcileTitle_noop _ _ _ Htitle)).
  rewrite (bind_inr _ _ _ _ _ (reconcileParent_noop _ _ _ Hbr)).
  rewrite (bind_inr _ _ _ _ _ (reconcileRelation_noop _ _ _ Hty Hrel)).
  rewrite (bind_inr _ _ _ _ _ (reconcileShortcut_noop _ _ _ Hkb)).
  rewrite (bind_inr _ _ _ _ _ (reconcileIcon_noop _ _ _ Hicon)).
  done.
Qed.

Lemma resolveLauncher_succeeds opts s :
  resolvable opts s → ∃ n0 s0, resolveLauncher opts s = (inr n0, s0).
Proof.
  intros Hres.
  destruct (getNote (launcherNoteId opts) s) as [m|] eqn:En.
  - exists m, s. by apply resolveLauncher_found.
  - destruct Hres as [[? ?]|[parent Hp]]; [congruence|].
    destruct (resolveLauncher_created _ _ _ En Hp) as (n & b & s' & Hrun & _).
    by exists n, s'.
Qed.

Lemma createOrUpdateLauncher_succeeds opts s :
  validateLauncherOpts opts = None → wfBecca s → resolvable opts s →
  ∃ n s', createOrUpdateLauncher opts s = (inr n, s')
          ∧ BNote.noteId n = launcherNoteId opts ∧ reconciled opts n s' ∧ wfBecca s'.
Proof.
  intros Hvalid Hwf Hres.
  destruct (resolveLauncher_succeeds _ _ Hres) as (n0 & s0 & Hrun0).
  destruct (createOrUpdateLauncher_resolved _ _ _ _ Hvalid Hwf Hrun0)
    as (n & s1 & s2 & s' & _ & _ & _ & _ & Hid & Hrun & Hrec & Hwf').
  by exists n, s'.
Qed.

(** C1: for every valid launcher spec, on a store where the launcher or its
    container exists, the call succeeds with the note whose id is ['al_']
    followed by the id of the spec, and a second call with the same spec,
    made on the store the first one left, returns that same note and leaves
    that store as it is: no note, branch or attribute is added, and the
    supply of entity ids is not drawn from. *)
Theorem createOrUpdateLauncher_idempotent opts s :
  validateLauncherOpts opts = None → wfBecca s → resolvable opts s →
  ∃ n s1,
    createOrUpdateLauncher opts s = (inr n, s1)
    ∧ BNote.noteId n = "al_" +:+ str (Opts.id opts)
    ∧ createOrUpdateLauncher opts s1 = (inr n, s1).
Proof.
  intros Hvalid Hwf Hres.
  destruct (createOrUpdateLauncher_succeeds _ _ Hvalid Hwf Hres)
    as (n & s1 & Hrun & Hid & Hrec & _).
  exists n, s1. split; [done|]. split; [done|].
  by apply createOrUpdateLauncher_fixed.
Qed.

Lemma exampleBecca_wf : wfBecca exampleBecca.
Proof.
  intros k n. unfold exampleBecca. simpl.
  repeat (rewrite lookup_insert; case_decide; [intros [= <-]; by subst|]).
  by rewrite lookup_empty.
Qed.

Lemma exampleBecca_resolvable opts : resolvable opts exampleBecca.
Proof.
  right. unfold launcherParent, getNote.
  destruct (Opts.isVisible opts); vm_compute; by eexists.
Qed.

Lemma createOrUpdateLauncher_idempotent_witness :
  ∃ n s1,
    createOrUpdateLauncher exampleOpts exampleBecca = (inr n, s1)
    ∧ BNote.noteId n = "al_" +:+ str (Opts.id exampleOpts)
    ∧ createOrUpdateLauncher exampleOpts s1 = (inr n, s1).
Proof.
  apply (createOrUpdateLauncher_idempotent exampleOpts exampleBecca).
  - reflexivity.
  - apply exampleBecca_wf.
  - apply exampleBecca_resolvable.
Defined.

Lemma hasLabel_false i nm s :
  getLabelValue i nm s = None → hasLabel i nm s = false.
Proof.
  unfold getLabelValue, hasLabel, findAttr. rewrite existsb_find.
  by destruct (List.find (ownedAttr i "label" nm) (attributes s)).
Qed.

(** C5: a launcher reconciled with a keyboard shortcut carries the
    [keyboardShortcut] label with that value; reconciled again under the
    same id with the shortcut left out (missing, or empty), it owns no
    [keyboardShortcut] label any more.  The icon follows the same rule with
    the [iconClass] label, whose value is the icon name after ['bx ']. *)
Theorem createOrUpdateLauncher_retracts_omitted_fields o1 o2 s :
  validateLauncherOpts o1 = None → validateLauncherOpts o2 = None →
  Opts.id o2 = Opts.id o1 → wfBecca s → resolvable o1 s →
  ∃ n1 s1 n2 s2,
    createOrUpdateLauncher o1 s = (inr n1, s1)
    ∧ createOrUpdateLauncher o2 s1 = (inr n2, s2)
    ∧ BNote.noteId n1 = launcherNoteId o1 ∧ BNote.noteId n2 = launcherNoteId o1
    ∧ (truthyStr (Opts.keyboardShortcut o1) = true →
       getLabelValue (launcherNoteId o1) "keyboardShortcut" s1 = Opts.keyboardShortcut o1)
    ∧ (truthyStr (Opts.keyboardShortcut o2) = false →
       hasLabel (launcherNoteId o1) "keyboardShortcut" s2 = false)
    ∧ (truthyStr (Opts.icon o1) = true →
       getLabelValue (launcherNoteId o1) "iconClass" s1 = Some ("bx " +:+ str (Opts.icon o1)))
    ∧ (truthyStr (Opts.icon o2) = false →
       hasLabel (launcherNoteId o1) "iconClass" s2 = false).
Proof.
  intros Hv1 Hv2 Hid Hwf Hres.
  destruct (createOrUpdateLauncher_succeeds _ _ Hv1 Hwf Hres)
    as (n1 & s1 & Hrun1 & Hid1 & Hrec1 & Hwf1).
  assert (Hsame : launcherNoteId o2 = launcherNoteId o1)
    by (unfold launcherNoteId; by rewrite Hid).
  assert (Hres2 : resolvable o2 s1).
  { left. rewrite Hsame. destruct Hrec1 as (-> & _). by eexists. }
  destruct (createOrUpdateLauncher_succeeds _ _ Hv2 Hwf1 Hres2)
    as (n2 & s2 & Hrun2 & Hid2 & Hrec2 & _).
  exists n1, s1, n2, s2.
  destruct Hrec1 as (_ & _ & _ & _ & _ & Hkb1 & Hicon1).
  destruct Hrec2 as (_ & _ & _ & _ & _ & Hkb2 & Hicon2).
  rewrite Hsame in *.
  repeat split; try done.
  - intros E. by rewrite E in Hkb1.
  - intros E. rewrite E in Hkb2. by apply hasLabel_false.
  - intros E. by rewrite E in Hicon1.
  - intros E. rewrite E in Hicon2. by apply hasLabel_false.
Qed.

Lemma createOrUpdateLauncher_retracts_omitted_fields_witness :
  ∃ n1 s1 n2 s2,
    createOrUpdateLauncher exampleOpts exampleBecca = (inr n1, s1)
    ∧ createOrUpdateLauncher exampleOptsBare s1 = (inr n2, s2)
    ∧ BNote.noteId n1 = launcherNoteId exampleOpts
    ∧ BNote.noteId n2 = launcherNoteId exampleOpts
    ∧ (truthyStr (Opts.keyboardShortcut exampleOpts) = true →
       getLabelValue (launcherNoteId exampleOpts) "keyboardShortcut" s1
         = Opts.keyboardShortcut exampleOpts)
    ∧ (truthyStr (Opts.keyboardShortcut exampleOptsBare) = false →
       hasLabel (launcherNoteId exampleOpts) "keyboardShortcut" s2 = false)
    ∧ (truthyStr (Opts.icon exampleOpts) = true →
       getLabelValue (launcherNoteId exampleOpts) "iconClass" s1
         = Some ("bx " +:+ str (Opts.icon exampleOpts)))
    ∧ (truthyStr (Opts.icon exampleOptsBare) = false →
       hasLabel (launcherNoteId exampleOpts) "iconClass" s2 = false).
Proof.
  apply (createOrUpdateLauncher_retracts_omitted_fields exampleOpts exampleOptsBare exampleBecca).
  - reflexivity.
  - reflexivity.
  - reflexivity.
  - apply exampleBecca_wf.
  - apply exampleBecca_resolvable.
Defined.

(** C8: when the launcher exists already, the call moves a branch exactly
    when the launcher has one parent branch and that branch hangs under a
    note other than the container that [isVisible] implies.  Then that very
    branch, under its own id, is the launcher's parent branch afterwards,
    now under that container; no branch id appears or disappears, and the
    branches with another id stay.  With no parent branch, with several,
    or with the one branch already in place, the branches are left as they
    were. *)
Theorem createOrUpdateLauncher_relocates_single_branch opts s n :
  validateLauncherOpts opts = None → wfBecca s →
  getNote (launcherNoteId opts) s = Some n →
  ∃ n' s',
    createOrUpdateLauncher opts s = (inr n', s')
    ∧ BBranch.branchId <$> branches s' = BBranch.branchId <$> branches s
    ∧ ((∃ b, getParentBranches (launcherNoteId opts) s = [b]
             ∧ BBranch.parentNoteId b ≠ launcherParent opts
             ∧ getParentBranches (launcherNoteId opts) s'
                 = [BBranch.set_parentNoteId (launcherParent opts) b]
             ∧ branches s' ≠ branches s
             ∧ ∀ b', b' ∈ branches s → BBranch.branchId b' ≠ BBranch.branchId b →
                     b' ∈ branches s')
       ∨ ((¬ ∃ b, getParentBranches (launcherNoteId opts) s = [b]
                  ∧ BBranch.parentNoteId b ≠ launcherParent opts)
          ∧ branches s' = branches s))
    ∧ (length (getParentBranches (launcherNoteId opts) s) ≠ 1 → branches s' = branches s).
Proof.
  intros Hvalid Hwf Hget.
  pose proof (resolveLauncher_found _ _ _ Hget) as Hres.
  destruct (createOrUpdateLauncher_resolved _ _ _ _ Hvalid Hwf Hres)
    as (n' & s1 & s2 & s' & Hrun1 & Hrun2 & Hb1 & Hb' & Hid & Hrun & _ & _).
  destruct (reconcileParent_run opts n' s1)
    as (s2' & Hrun2' & _ & _ & _ & Hids & Hmove).
  rewrite Hrun2 in Hrun2'. injection Hrun2' as <-.
  rewrite Hid in Hmove.
  rewrite (getParentBranches_branches _ s s1) in Hmove by done.
  rewrite <- (getParentBranches_branches _ s2 s') in Hmove by done.
  assert (Hcases :
    (∃ b, getParentBranches (launcherNoteId opts) s = [b]
          ∧ BBranch.parentNoteId b ≠ launcherParent opts
          ∧ getParentBranches (launcherNoteId opts) s'
              = [BBranch.set_parentNoteId (launcherParent opts) b]
          ∧ branches s' ≠ branches s
          ∧ ∀ b', b' ∈ branches s → BBranch.branchId b' ≠ BBranch.branchId b →
                  b' ∈ branches s')
    ∨ ((¬ ∃ b, getParentBranches (launcherNoteId opts) s = [b]
               ∧ BBranch.parentNoteId b ≠ launcherParent opts)
       ∧ branches s' = branches s)).
  { destruct Hmove as [(b & Hone & Hne & Hafter & Hrest) | (Hnot & ->)].
    - left. exists b. repeat split; try done.
      + intros Heq. rewrite (getParentBranches_branches _ s s') in Hafter by done.
        rewrite Hone in Hafter. injection Hafter as Hb. apply Hne. by rewrite Hb.
      + intros b' Hin Hneq. rewrite Hb'. apply Hrest; [by rewrite Hb1|done].
    - right. split; [done|]. congruence. }
  exists n', s'. repeat split; try done.
  - congruence.
  - intros Hlen. destruct Hcases as [(b & Hone & _) | (_ & ?)]; [|done].
    by rewrite Hone in Hlen.
Qed.

Lemma exampleBeccaWithLauncher_wf : wfBecca exampleBeccaWithLauncher.
Proof.
  destruct (createOrUpdateLauncher_succeeds exampleOptsBare exampleBecca eq_refl
              exampleBecca_wf (exampleBecca_resolvable _))
    as (n & s' & Hrun & _ & _ & Hwf).
  unfold exampleBeccaWithLauncher. by rewrite Hrun.
Qed.

Lemma createOrUpdateLauncher_relocates_single_branch_witness :
  ∃ n' s',
    createOrUpdateLauncher exampleOpts exampleBeccaWithLauncher = (inr n', s')
    ∧ BBranch.branchId <$> branches s' = BBranch.branchId <$> branches exampleBeccaWithLauncher
    ∧ ((∃ b, getParentBranches (launcherNoteId exampleOpts) exampleBeccaWithLauncher = [b]
             ∧ BBranch.parentNoteId b ≠ launcherParent exampleOpts
             ∧ getParentBranches (launcherNoteId exampleOpts) s'
                 = [BBranch.set_parentNoteId (launcherParent exampleOpts) b]
             ∧ branches s' ≠ branches exampleBeccaWithLauncher
             ∧ ∀ b', b' ∈ branches exampleBeccaWithLauncher →
                     BBranch.branchId b' ≠ BBranch.branchId b → b' ∈ branches s')
       ∨ ((¬ ∃ b, getParentBranches (launcherNoteId exampleOpts) exampleBeccaWithLauncher = [b]
                  ∧ BBranch.parentNoteId b ≠ launcherParent exampleOpts)
          ∧ branches s' = branches exampleBeccaWithLauncher))
    ∧ (length (getParentBranches (launcherNoteId exampleOpts) exampleBeccaWithLauncher) ≠ 1 →
       branches s' = branches exampleBeccaWithLauncher).
Proof.
  apply (createOrUpdateLauncher_relocates_single_branch exampleOpts exampleBeccaWithLauncher
           (BNote.mk "al_calendar1" "Calendar" "launcher" "" (JsString ""))).
  - reflexivity.
  - apply exampleBeccaWithLauncher_wf.
  - vm_compute. reflexivity.
Defined.

(** The example at work: the launcher created under the available
    launchers is moved, under its branch id, to the visible ones. *)
Example relocation_example :
  getParentBranches "al_calendar1" exampleBeccaWithLauncher
    = [BBranch.mk "e0" "al_calendar1" "_lbAvailableLaunchers" "" 10 false]
  ∧ getParentBranches "al_calendar1"
      (snd (createOrUpdateLauncher exampleOpts exampleBeccaWithLauncher))
    = [BBranch.mk "e0" "al_calendar1" "_lbVisibleLaunchers" "" 10 false].
Proof. split; vm_compute; reflexivity. Qed.

(** ** The guard on the id *)

Lemma alnumRun_eq run s :
  alnumRun run s =
    if (6 <=? run)%nat then true
    else match s with
         | EmptyString => false
         | String c s' => if isAlnum c then alnumRun (S run) s' else alnumRun 0 s'
         end.
Proof. by destruct s. Qed.

Lemma alnumRun_reached run s : (6 ≤ run)%nat → alnumRun run s = true.
Proof. intros H. by rewrite alnumRun_eq, (proj2 (Nat.leb_le 6 run) H). Qed.

Lemma alnumRun_continues mid post run :
  allAlnum mid = true → (6 ≤ run + String.length mid)%nat →
  alnumRun run (mid +:+ post) = true.
Proof.
  revert run. induction mid as [|c mid IH]; intros run Hmid Hlen.
  - apply alnumRun_reached. simpl in Hlen. lia.
  - change (String c mid +:+ post) with (String c (mid +:+ post)).
    rewrite alnumRun_eq.
    cbn [allAlnum] in Hmid. apply andb_prop in Hmid as [Hc Hmid]. rewrite Hc.
    destruct (6 <=? run)%nat; [done|]. apply IH; [done|]. cbn [String.length] in Hlen. lia.
Qed.

Lemma alnumRun_complete s run : holdsAlnumRun s → alnumRun run s = true.
Proof.
  intros (pre & mid & post & -> & Hmid & Hlen). revert run.
  induction pre as [|c pre IH]; intros run.
  - change ("" +:+ mid +:+ post) with (mid +:+ post). apply alnumRun_continues; [done|lia].
  - change (String c pre +:+ mid +:+ post) with (String c (pre +:+ mid +:+ post)).
    rewrite alnumRun_eq.
    destruct (6 <=? run)%nat; [done|]. by destruct (isAlnum c).
Qed.

Lemma alnumRun_sound s run :
  alnumRun run s = true →
  (∃ mid post, s = mid +:+ post ∧ allAlnum mid = true ∧ (6 ≤ run + String.length mid)%nat)
  ∨ holdsAlnumRun s.
Proof.
  revert run. induction s as [|c s IH]; intros run; rewrite alnumRun_eq.
  - destruct (6 <=? run)%nat eqn:E; [|done]. intros _. left.
    exists "", "". apply Nat.leb_le in E. simpl. repeat split. lia.
  - destruct (6 <=? run)%nat eqn:E.
    { intros _. left. exists "", (String c s). apply Nat.leb_le in E.
      simpl. repeat split. lia. }
    destruct (isAlnum c) eqn:Ec; intros H; apply IH in H.
    + destruct H as [(mid & post & -> & Hmid & Hlen) | (pre & mid & post & -> & Hmid & Hlen)].
      * left. exists (String c mid), post. simpl. rewrite Ec, Hmid. repeat split. lia.
      * right. by exists (String c pre), mid, post.
    + right.
      destruct H as [(mid & post & -> & Hmid & Hlen) | (pre & mid & post & -> & Hmid & Hlen)].
      * exists (String c ""), mid, post. simpl in *. repeat split; [done|lia].
      * by exists (String c pre), mid, post.
Qed.

(** The pattern accepts exactly the strings that hold six alphanumeric
    characters in a row, whatever stands before and after them. *)
Lemma matchesIdPattern_spec s : matchesIdPattern s = true ↔ holdsAlnumRun s.
Proof.
  split; [|apply alnumRun_complete].
  intros H. apply alnumRun_sound in H as [(mid & post & -> & Hmid & Hlen) | H]; [|done].
  exists "", mid, post. simpl in *. by repeat split.
Qed.

Lemma append_empty_r s : s +:+ "" = s.
Proof.
  induction s as [|c s IH]; [done|].
  change (String c s +:+ "") with (String c (s +:+ "")). by rewrite IH.
Qed.

(** Every id that the documented rule allows passes the guard: the guard
    is the laxer of the two. *)
Lemma documented_ids_pass_the_guard i :
  documentedIdRule i = true → matchesIdPattern i = true.
Proof.
  unfold documentedIdRule. intros H. apply andb_prop in H as [Hall Hlen].
  apply Nat.leb_le in Hlen. apply matchesIdPattern_spec.
  exists "", i, "". simpl. by rewrite append_empty_r.
Qed.

(** What the guards do refuse: a missing id, an id without six
    alphanumeric characters in a row, a missing or unknown type, a title
    that is blank once trimmed, and a missing reference for the type.  The
    call then fails, and the store is as it was. *)
Lemma createOrUpdateLauncher_refuses opts s :
  truthyStr (Opts.id opts) = false
  ∨ matchesIdPattern (str (Opts.id opts)) = false
  ∨ ¬ (Opts.type opts = Some "note" ∨ Opts.type opts = Some "script"
       ∨ Opts.type opts = Some "customWidget")
  ∨ truthyStr (trimOpt (Opts.title opts)) = false
  ∨ (Opts.type opts = Some "note" ∧ truthyStr (Opts.targetNoteId opts) = false)
  ∨ (Opts.type opts = Some "script" ∧ truthyStr (Opts.scriptNoteId opts) = false)
  ∨ (Opts.type opts = Some "customWidget" ∧ truthyStr (Opts.widgetNoteId opts) = false) →
  ∃ e, createOrUpdateLauncher opts s = (inl e, s).
Proof.
  intros Hbad.
  destruct (validateLauncherOpts opts) as [e|] eqn:Hv.
  { exists e. by apply validation_failure_no_mutation. }
  exfalso.
  destruct (validate_ok _ Hv) as ((i & Hi & Hmatch) & _ & Hty).
  unfold validateLauncherOpts in Hv. passed_guards Hv.
  destruct Hbad as [H|[H|[H|[H|[[Ht H]|[[Ht H]|[Ht H]]]]]]]; try congruence;
    rewrite Ht, H in *; done.
Qed.

(** C3, at an id that is not alphanumeric: the documented rule refuses
    ['abcdef!'], yet the guard lets it through, the call succeeds and the
    launcher ['al_abcdef!'] is created in a store that did not hold it. *)
Theorem createOrUpdateLauncher_accepts_non_alphanumeric_id :
  documentedIdRule "abcdef!" = false
  ∧ validateLauncherOpts exampleOptsBadId = None
  ∧ getNote "al_abcdef!" exampleBecca = None
  ∧ ∃ n s',
      createOrUpdateLauncher exampleOptsBadId exampleBecca = (inr n, s')
      ∧ BNote.noteId n = "al_abcdef!"
      ∧ getNote "al_abcdef!" s' = Some n
      ∧ length (branches s') = S (length (branches exampleBecca)).
Proof.
  split; [reflexivity|]. split; [reflexivity|]. split; [reflexivity|].
  do 2 eexists. split; [vm_compute; reflexivity|].
  split; [reflexivity|]. split; vm_compute; reflexivity.
Qed.

(** ** [createNote] *)




Lemma transactional_inr {A} inTransaction (func : Eff Becca A) s a s' :
  transactional inTransaction func s = (inr a, s') ↔ func s = (inr a, s').
Proof.
  unfold transactional. destruct inTransaction; [done|].
  by destruct (func s) as [[e|a'] s1].
Qed.

Lemma writtenOptions_attributes parentNote parentNoteId title content extraOptions :
  ExtraOptions.attributes (writtenOptions parentNote parentNoteId title content extraOptions)
    = ExtraOptions.attributes extraOptions.
Proof.
  unfold writtenOptions, resolveOptions, enterOptions. simpl.
  by destruct (truthy (ExtraOptions.json extraOptions)).
Qed.

Section CreateNoteProperties.

Variable createAttribute : AttributeParams.t → Eff Becca unit.

Lemma createNote_found inTransaction parentNoteId title content extraOptions s parentNote :
  getNote parentNoteId s = Some parentNote →
  createNote createAttribute inTransaction parentNoteId title content extraOptions s =
    (let eo := writtenOptions parentNote parentNoteId title content extraOptions in
     let '(r, s') := transactional inTransaction (createNoteUnit createAttribute eo) s in
     (r, eo, s')).
Proof. unfold createNote. by intros ->. Qed.

(** Whatever makes a call that opens its own transaction fail, the store
    is afterwards as it was before. *)
Lemma createNote_failure_restores parentNoteId title content extraOptions s e eo' s' :
  createNote createAttribute false parentNoteId title content extraOptions s
    = (inl e, eo', s') →
  s' = s.
Proof.
  unfold createNote. destruct (getNote parentNoteId s) as [parentNote|]; [|congruence].
  unfold transactional.
  destruct (createNoteUnit createAttribute _ s) as [[e0|r] s1]; congruence.
Qed.



(** C7, as the code has it: when the parent does not resolve, the call
    fails before any note, branch or attribute is created, the store being
    left as it was, and the failure is the error that the runtime raises
    on reading the type of the missing parent; no check of the operation
    itself raises it.  The caller's object holds [parentNoteId] and [title]
    by then. *)
Theorem createNote_missing_parent inTransaction parentNoteId title content extraOptions s :
  getNote parentNoteId s = None →
  createNote createAttribute inTransaction parentNoteId title content extraOptions s
    = (inl missingParentError, enterOptions parentNoteId title extraOptions, s)
  ∧ isValidationError missingParentError = false.
Proof. intros H. unfold createNote. by rewrite H. Qed.

(** C9, as the code has it: the call leaves the caller's object with
    [parentNoteId] and [title] written and, when the parent resolves, with
    [type], [mime] and [content] written as well, whatever the caller had
    put there; the fields [json], [isProtected] and [attributes] are as
    the caller set them.  When the parent does not resolve, [type], [mime]
    and [content] are not written. *)
Theorem createNote_writes_extraOptions inTransaction parentNoteId title content extraOptions s :
  let eo' :=
    snd (fst (createNote createAttribute inTransaction parentNoteId title content
                extraOptions s)) in
  ExtraOptions.parentNoteId eo' = Some parentNoteId
  ∧ ExtraOptions.title eo' = Some title
  ∧ ExtraOptions.json eo' = ExtraOptions.json extraOptions
  ∧ ExtraOptions.isProtected eo' = ExtraOptions.isProtected extraOptions
  ∧ ExtraOptions.attributes eo' = ExtraOptions.attributes extraOptions
  ∧ match getNote parentNoteId s with
    | Some parentNote =>
        let isCode := bool_decide (BNote.type parentNote = "code") in
        let json := truthy (ExtraOptions.json extraOptions) in
        ExtraOptions.type eo' = Some (if json || isCode then "code" else "text")
        ∧ ExtraOptions.mime eo'
            = Some (if json then "application/json"
                    else if isCode then BNote.mime parentNote else "text/html")
        ∧ ExtraOptions.content eo'
            = Some (if json then JSON_stringify (orElse (contentOrDefault content) (JsObject []))
                    else contentOrDefault content)
    | None =>
        ExtraOptions.type eo' = ExtraOptions.type extraOptions
        ∧ ExtraOptions.mime eo' = ExtraOptions.mime extraOptions
        ∧ ExtraOptions.content eo' = ExtraOptions.content extraOptions
    end.
Proof.
  unfold createNote.
  destruct (getNote parentNoteId s) as [parentNote|]; [|by simpl].
  destruct (transactional _ _ s) as [r s'']. simpl.
  unfold resolveOptions, enterOptions. simpl.
  assert (Hcode : String.eqb (BNote.type parentNote) "code"
                  = bool_decide (BNote.type parentNote = "code")).
  { case_bool_decide as E; [by apply String.eqb_eq|by apply String.eqb_neq]. }
  rewrite Hcode.
  destruct (truthy (ExtraOptions.json extraOptions)); simpl; by repeat split.
Qed.

End CreateNoteProperties.


(** The failing list at work: the unit of work had created a note, a
    branch and one attribute when the second attribute was refused, and
    the call leaves none of them; made inside an open transaction, it
    leaves them to be undone by that transaction. *)
Example createNote_rollback_example :
  let unit :=
    createNoteUnit exampleCreateAttribute
      (writtenOptions (exampleNote "root" "root" "text" "text/html") "root" "T"
         (JsString "c") exampleFailingOptions) exampleBecca in
  fst unit = inl (Error "Invalid attribute type")
  ∧ length (branches (snd unit)) = 1%nat
  ∧ length (attributes (snd unit)) = 1%nat
  ∧ snd (createNote exampleCreateAttribute false "root" "T" (JsString "c") exampleFailingOptions
           exampleBecca) = exampleBecca
  ∧ snd (createNote exampleCreateAttribute true "root" "T" (JsString "c") exampleFailingOptions
           exampleBecca) = snd unit.
Proof.
  cbv zeta. split; [vm_compute; reflexivity|]. split; [vm_compute; reflexivity|].
  split; [vm_compute; reflexivity|]. split; vm_compute; reflexivity.
Qed.



(** The serialization at work: one member to a line, one tab for each
    level, the members in the order of the object. *)
Example JSON_stringify_example :
  JSON_stringify exampleObject =
    JsString ("{" +:+ nl
      +:+ tab +:+ dquote +:+ "b" +:+ dquote +:+ ": 2," +:+ nl
      +:+ tab +:+ dquote +:+ "a" +:+ dquote +:+ ": [" +:+ nl
      +:+ tab +:+ tab +:+ dquote +:+ "x" +:+ dquote +:+ "," +:+ nl
      +:+ tab +:+ tab +:+ "null," +:+ nl
      +:+ tab +:+ tab +:+ "{}" +:+ nl
      +:+ tab +:+ "]" +:+ nl
      +:+ "}").
Proof. reflexivity. Qed.

(** Without JSON the note takes after its parent. *)
Example createNote_inherits_code_example :
  ∃ n1 b1 eo1 s1 n2 b2 eo2 s2,
    createNote exampleCreateAttribute false "script1" "T" (JsString "c") emptyExtraOptions exampleBecca
      = (inr (n1, b1), eo1, s1)
    ∧ (BNote.type n1, BNote.mime n1) = ("code", "application/javascript")
    ∧ createNote exampleCreateAttribute false "root" "T" (JsString "c") emptyExtraOptions exampleBecca
      = (inr (n2, b2), eo2, s2)
    ∧ (BNote.type n2, BNote.mime n2) = ("text", "text/html").
Proof. do 8 eexists. repeat split; vm_compute; reflexivity. Qed.

Lemma createNote_missing_parent_witness :
  createNote exampleCreateAttribute false "missing" "T" (JsString "c") emptyExtraOptions exampleBecca
    = (inl missingParentError, enterOptions "missing" "T" emptyExtraOptions, exampleBecca)
  ∧ isValidationError missingParentError = false.
Proof.
  apply (createNote_missing_parent exampleCreateAttribute false "missing" "T" (JsString "c")
           emptyExtraOptions exampleBecca).
  reflexivity.
Defined.

(** C7, against the claim as worded: on a parent that does not resolve the
    call fails with an error that is no validation error. *)
Lemma createNote_missing_parent_not_a_validation_error :
  ∃ e,
    fst (fst (createNote exampleCreateAttribute false "missing" "T" (JsString "c")
                emptyExtraOptions exampleBecca)) = inl e
    ∧ isValidationError e = false.
Proof. eexists. split; reflexivity. Qed.

(** C9, against the claim as worded: a caller's object that holds already
    what the call writes is the same object after the call; and on a
    parent that does not resolve the call leaves [type], [mime] and
    [content] unwritten. *)
Lemma createNote_settled_options_do_not_differ :
  snd (fst (createNote exampleCreateAttribute false "root" "T" (JsString "c") exampleSettledOptions
              exampleBecca)) = exampleSettledOptions
  ∧ snd (fst (createNote exampleCreateAttribute false "missing" "T" (JsString "c") emptyExtraOptions
                exampleBecca))
    = ExtraOptions.mk (Some "missing") (Some "T") None None None JsUndefined false None.
Proof. split; reflexivity. Qed.

(** ** [log], its timers and its keys *)

Lemma log_startNote m a : startNote (log m a) = startNote a.
Proof. reflexivity. Qed.

Lemma log_wsSent m a : wsSent (log m a) = wsSent a.
Proof. reflexivity. Qed.

Lemma log_logMessages m a :
  logMessages (log m a)
    = <[BNote.noteId (startNote a) := pending (BNote.noteId (startNote a)) a ++ [m]]>
        (logMessages a).
Proof. unfold log, pending. simpl. by rewrite alter_insert_eq. Qed.

Lemma log_logSpacedUpdates m a :
  logSpacedUpdates (log m a)
    = <[BNote.noteId (startNote a) :=
          scheduleUpdate (default (mkSpacedUpdate (BNote.noteId (startNote a)) 100 false)
                            (logSpacedUpdates a !! BNote.noteId (startNote a)))]>
        (logSpacedUpdates a).
Proof. unfold log. simpl. by rewrite alter_insert_eq. Qed.

Lemma logInv_new currentNote startNote : logInv (newBackendScriptApi currentNote startNote).
Proof. intros k su. simpl. by rewrite lookup_empty. Qed.

Lemma logInv_log m a : logInv a → logInv (log m a).
Proof.
  intros Hinv k su. rewrite log_logSpacedUpdates, log_logMessages, !lookup_insert.
  case_decide as Hk.
  - subst k. intros [= <-]. split.
    + simpl. destruct (logSpacedUpdates a !! BNote.noteId (startNote a)) as [su0|] eqn:E;
        simpl; [|done]. by apply (Hinv _ _ E).
    + intros _. unfold pending.
      destruct (default [] (logMessages a !! BNote.noteId (startNote a))) as [|x xs];
        simpl; eauto.
  - apply Hinv.
Qed.

Lemma logInv_logAll ms a : logInv a → logInv (logAll ms a).
Proof.
  unfold logAll. revert a. induction ms as [|m ms IH]; intros a Hinv; simpl; [done|].
  apply IH. by apply logInv_log.
Qed.

Lemma timerFires_idle key a : scheduled key a = false → timerFires key a = a.
Proof.
  unfold scheduled, timerFires.
  destruct (logSpacedUpdates a !! key) as [su|]; [|done]. by intros ->.
Qed.

Lemma timerFires_scheduled key a su :
  logSpacedUpdates a !! key = Some su → changed su = true →
  timerFires key a =
    updater (updaterNoteId su) (set_logSpacedUpdates (insert key (set_changed false su)) a).
Proof. unfold timerFires. by intros -> ->. Qed.

Lemma logInv_timerFires key a : logInv a → logInv (timerFires key a).
Proof.
  intros Hinv. unfold timerFires.
  destruct (logSpacedUpdates a !! key) as [su|] eqn:E; [|done].
  destruct (changed su) eqn:Ec; [|done].
  destruct (Hinv _ _ E) as [Hkey _]. rewrite Hkey.
  intros k su'. unfold updater. simpl. rewrite !lookup_insert.
  case_decide as Hk.
  - subst k. intros [= <-]. simpl. split; [done|done].
  - apply Hinv.
Qed.

Lemma logAll_snoc ms m a : logAll (ms ++ [m]) a = log m (logAll ms a).
Proof. unfold logAll. by rewrite foldl_snoc. Qed.

Lemma logAll_startNote ms a : startNote (logAll ms a) = startNote a.
Proof.
  induction ms as [|m ms IH] using rev_ind; [done|]. by rewrite logAll_snoc, log_startNote.
Qed.

Lemma logAll_wsSent ms a : wsSent (logAll ms a) = wsSent a.
Proof.
  induction ms as [|m ms IH] using rev_ind; [done|]. by rewrite logAll_snoc, log_wsSent.
Qed.

(** The messages logged pile up behind the pending ones, in call order. *)
Lemma logAll_pending ms a :
  pending (BNote.noteId (startNote a)) (logAll ms a)
    = pending (BNote.noteId (startNote a)) a ++ ms.
Proof.
  induction ms as [|m ms IH] using rev_ind; [by rewrite app_nil_r|].
  rewrite logAll_snoc. unfold pending at 1.
  rewrite log_logMessages, logAll_startNote, lookup_insert_eq. simpl.
  by rewrite IH, app_assoc.
Qed.

Lemma logAll_scheduled ms a :
  ms ≠ [] → scheduled (BNote.noteId (startNote a)) (logAll ms a) = true.
Proof.
  destruct ms as [|m ms _] using rev_ind; [done|]. intros _.
  rewrite logAll_snoc. unfold scheduled.
  by rewrite log_logSpacedUpdates, logAll_startNote, lookup_insert_eq.
Qed.

(** The updater closure has no test of its own: run on a key with nothing
    pending it would send a message all the same.  The timer never runs it
    there, a flush being scheduled only while messages are pending. *)
Remark updater_sends_whatever_is_pending :
  wsSent (updater "n1" (newBackendScriptApi exampleStartNote exampleStartNote))
    = [WsMessage.mk "api-log-messages" "n1" None].
Proof. reflexivity. Qed.

(** C4: on an instance as [log] keeps it, the timer of a key that fires
    while a flush is scheduled takes the whole pending sequence of the key,
    which is not empty, leaves the empty sequence in its place, returns the
    key to idle and hands the sequence to the clients as one message more,
    of type [api-log-messages], under that key; fired while nothing is
    pending, it sends nothing; in either case the pending sequence of every
    other key is as it was.  The sequence is in call order: after [log] has
    been called for each of [ms] in turn, the next firing under the key of
    the start note sends the messages that were pending before, followed by
    [ms], in one message. *)
Theorem timerFires_flushes_pending a key ms :
  logInv a →
  (scheduled key a = true →
     pending key a ≠ []
     ∧ wsSent (timerFires key a)
       = wsSent a ++ [WsMessage.mk "api-log-messages" key (Some (pending key a))]
     ∧ logMessages (timerFires key a) !! key = Some []
     ∧ scheduled key (timerFires key a) = false)
  ∧ (pending key a = [] → wsSent (timerFires key a) = wsSent a)
  ∧ (∀ k, k ≠ key → logMessages (timerFires key a) !! k = logMessages a !! k)
  ∧ (ms ≠ [] →
     let sid := BNote.noteId (startNote a) in
     wsSent (timerFires sid (logAll ms a))
     = wsSent a ++ [WsMessage.mk "api-log-messages" sid (Some (pending sid a ++ ms))]).
Proof.
  intros Hinv.
  assert (Hfire : ∀ b k, logInv b → scheduled k b = true →
     pending k b ≠ []
     ∧ wsSent (timerFires k b)
       = wsSent b ++ [WsMessage.mk "api-log-messages" k (Some (pending k b))]
     ∧ logMessages (timerFires k b) !! k = Some []
     ∧ scheduled k (timerFires k b) = false).
  { intros b k Hb Hs. unfold scheduled in Hs.
    destruct (logSpacedUpdates b !! k) as [su|] eqn:E; [|done].
    destruct (Hb _ _ E) as [Hkey Hpend]. destruct (Hpend Hs) as (m & rest & Hm).
    rewrite (timerFires_scheduled _ _ _ E Hs), Hkey. unfold updater, pending, scheduled.
    simpl. rewrite Hm, !lookup_insert_eq. simpl. by repeat split. }
  split; [by apply Hfire|]. split; [|split].
  - intros Hempty. destruct (scheduled key a) eqn:Hs.
    + by destruct (Hfire a key Hinv Hs) as [Hne _].
    + by rewrite timerFires_idle.
  - intros k Hk. unfold timerFires.
    destruct (logSpacedUpdates a !! key) as [su|] eqn:E; [|done].
    destruct (changed su); [|done].
    destruct (Hinv _ _ E) as [-> _]. unfold updater. simpl. by rewrite lookup_insert_ne.
  - intros Hms. cbv zeta.
    destruct (Hfire (logAll ms a) (BNote.noteId (startNote a))
                (logInv_logAll _ _ Hinv) (logAll_scheduled _ _ Hms))
      as (_ & Hsent & _).
    by rewrite Hsent, logAll_wsSent, logAll_pending.
Qed.

Lemma exampleApi_logInv : logInv exampleApi.
Proof. unfold exampleApi. apply logInv_logAll, logInv_new. Qed.

Lemma timerFires_flushes_pending_witness :
  (scheduled "n1" exampleApi = true →
     pending "n1" exampleApi ≠ []
     ∧ wsSent (timerFires "n1" exampleApi)
       = wsSent exampleApi
           ++ [WsMessage.mk "api-log-messages" "n1" (Some (pending "n1" exampleApi))]
     ∧ logMessages (timerFires "n1" exampleApi) !! "n1" = Some []
     ∧ scheduled "n1" (timerFires "n1" exampleApi) = false)
  ∧ (pending "n1" exampleApi = [] → wsSent (timerFires "n1" exampleApi) = wsSent exampleApi)
  ∧ (∀ k, k ≠ "n1" →
          logMessages (timerFires "n1" exampleApi) !! k = logMessages exampleApi !! k)
  ∧ ([JsString "six"] ≠ [] →
     let sid := BNote.noteId (startNote exampleApi) in
     wsSent (timerFires sid (logAll [JsString "six"] exampleApi))
     = wsSent exampleApi
         ++ [WsMessage.mk "api-log-messages" sid
               (Some (pending sid exampleApi ++ [JsString "six"]))]).
Proof.
  exact (timerFires_flushes_pending exampleApi "n1" [JsString "six"] exampleApi_logInv).
Defined.

(** The coalescing of the spec at work: five calls, one message with the
    five in call order, nothing left pending, and nothing sent by a second
    firing. *)
Example coalescing_example :
  wsSent exampleApi = []
  ∧ wsSent (timerFires "n1" exampleApi)
    = [WsMessage.mk "api-log-messages" "n1" (Some exampleMessages)]
  ∧ pending "n1" (timerFires "n1" exampleApi) = []
  ∧ wsSent (timerFires "n1" (timerFires "n1" exampleApi))
    = wsSent (timerFires "n1" exampleApi).
Proof.
  split; [vm_compute; reflexivity|]. split; [vm_compute; reflexivity|].
  split; vm_compute; reflexivity.
Qed.

Lemma run_snoc evs ev a : run (evs ++ [ev]) a = step (run evs a) ev.
Proof. unfold run. by rewrite foldl_snoc. Qed.

Lemma step_startNote a ev : startNote (step a ev) = startNote a.
Proof.
  destruct ev as [m|key|n]; try done. cbn [step]. unfold timerFires.
  destruct (logSpacedUpdates a !! key) as [su|]; [|done]. by destruct (changed su).
Qed.

Lemma logInv_step a ev : logInv a → logInv (step a ev).
Proof.
  destruct ev as [m|key|n]; cbn [step]; [apply logInv_log|apply logInv_timerFires|done].
Qed.

Lemma dom_insert_within {A} (sid : string) (x : A) (m : gmap string A) :
  dom m ⊆ {[sid]} → dom (<[sid := x]> m) ⊆ {[sid]}.
Proof.
  intros Hm k. rewrite dom_insert_L, elem_of_union. intros [Hk|Hk]; [done|by apply Hm].
Qed.

Lemma dom_insert_grows {A} (k : string) (x : A) (m : gmap string A) :
  dom m ⊆ dom (<[k := x]> m).
Proof. intros j Hj. rewrite dom_insert_L. apply elem_of_union. by right. Qed.

Lemma dom_within_eq (sid : string) (X : gset string) :
  X ⊆ {[sid]} → sid ∈ X → X = {[sid]}.
Proof.
  intros Hsub Hin. apply set_eq. intros k. split; [apply Hsub|].
  intros Hk. apply elem_of_singleton in Hk. by subst k.
Qed.

(** A step never drops a key. *)
Lemma step_dom_mono a ev :
  dom (logMessages a) ⊆ dom (logMessages (step a ev))
  ∧ dom (logSpacedUpdates a) ⊆ dom (logSpacedUpdates (step a ev)).
Proof.
  destruct ev as [m|key|n]; cbn [step]; [| |done].
  - rewrite log_logMessages, log_logSpacedUpdates. split; apply dom_insert_grows.
  - unfold timerFires. destruct (logSpacedUpdates a !! key) as [su|]; [|done].
    destruct (changed su); [|done]. unfold updater. simpl. split; apply dom_insert_grows.
Qed.

(** A step adds no key but the id of the start note, and sends under no
    other key. *)
Lemma step_keys a ev :
  logInv a →
  dom (logMessages a) ⊆ {[BNote.noteId (startNote a)]} →
  dom (logSpacedUpdates a) ⊆ {[BNote.noteId (startNote a)]} →
  (∀ w, w ∈ wsSent a → WsMessage.noteId w = BNote.noteId (startNote a)) →
  dom (logMessages (step a ev)) ⊆ {[BNote.noteId (startNote a)]}
  ∧ dom (logSpacedUpdates (step a ev)) ⊆ {[BNote.noteId (startNote a)]}
  ∧ (∀ w, w ∈ wsSent (step a ev) → WsMessage.noteId w = BNote.noteId (startNote a)).
Proof.
  intros Hinv Hm Hsu Hw. destruct ev as [m|key|n]; cbn [step]; [| |done].
  - rewrite log_logMessages, log_logSpacedUpdates, log_wsSent.
    split; [by apply dom_insert_within|]. split; [by apply dom_insert_within|done].
  - unfold timerFires. destruct (logSpacedUpdates a !! key) as [su|] eqn:E; [|done].
    destruct (changed su); [|done].
    destruct (Hinv _ _ E) as [-> _].
    assert (Hkey : key = BNote.noteId (startNote a)).
    { assert (Hin : key ∈ dom (logSpacedUpdates a)) by (apply elem_of_dom; by eexists).
      apply Hsu in Hin. by apply elem_of_singleton in Hin. }
    unfold updater. simpl. rewrite Hkey.
    split; [by apply dom_insert_within|]. split; [by apply dom_insert_within|].
    intros w Hin. apply elem_of_app in Hin as [Hin|Hin]; [by apply Hw|].
    apply list_elem_of_singleton in Hin. by subst w.
Qed.

Lemma run_keys current start evs :
  let a := run evs (newBackendScriptApi current start) in
  BNote.noteId (startNote a) = BNote.noteId start
  ∧ logInv a
  ∧ dom (logMessages a) ⊆ {[BNote.noteId start]}
  ∧ dom (logSpacedUpdates a) ⊆ {[BNote.noteId start]}
  ∧ (∀ w, w ∈ wsSent a → WsMessage.noteId w = BNote.noteId start).
Proof.
  cbv zeta. induction evs as [|ev evs IH] using rev_ind.
  - simpl. split; [done|]. split; [apply logInv_new|]. rewrite !dom_empty_L.
    split; [done|]. split; [done|]. intros w Hin. by apply elem_of_nil in Hin.
  - destruct IH as (Hid & Hinv & Hm & Hsu & Hw). rewrite run_snoc.
    rewrite <- Hid in Hm, Hsu, Hw.
    destruct (step_keys _ ev Hinv Hm Hsu Hw) as (Hm' & Hsu' & Hw').
    rewrite step_startNote. rewrite Hid in *.
    split; [done|]. split; [by apply logInv_step|done].
Qed.

Lemma run_logged_keys current start evs m :
  Log m ∈ evs →
  let a := run evs (newBackendScriptApi current start) in
  BNote.noteId start ∈ dom (logMessages a)
  ∧ BNote.noteId start ∈ dom (logSpacedUpdates a).
Proof.
  cbv zeta. induction evs as [|ev evs IH] using rev_ind.
  - intros Hin. by apply elem_of_nil in Hin.
  - intros Hin. rewrite run_snoc.
    apply elem_of_app in Hin as [Hin|Hin].
    + destruct (IH Hin) as [H1 H2].
      destruct (step_dom_mono (run evs (newBackendScriptApi current start)) ev)
        as [Hm Hs].
      split; [by apply Hm|by apply Hs].
    + apply list_elem_of_singleton in Hin. subst ev. cbn [step].
      destruct (run_keys current start evs) as (Hid & _).
      rewrite log_logMessages, log_logSpacedUpdates, !dom_insert_L, Hid.
      split; apply elem_of_union; left; by apply elem_of_singleton.
Qed.

(** C10: whatever is logged on an instance, whichever timers fire and
    whichever notes the script enters in between, the keys of
    [logMessages] and of [logSpacedUpdates] are among the single id of the
    start note, every message sent to the clients is sent under that id,
    and from the first call of [log] on that id is the one key of both. *)
Theorem log_keys_only_startNote current start evs :
  let a := run evs (newBackendScriptApi current start) in
  dom (logMessages a) ⊆ {[BNote.noteId start]}
  ∧ dom (logSpacedUpdates a) ⊆ {[BNote.noteId start]}
  ∧ (∀ w, w ∈ wsSent a → WsMessage.noteId w = BNote.noteId start)
  ∧ ((∃ m, Log m ∈ evs) →
     dom (logMessages a) = {[BNote.noteId start]}
     ∧ dom (logSpacedUpdates a) = {[BNote.noteId start]}).
Proof.
  cbv zeta.
  destruct (run_keys current start evs) as (_ & _ & Hm & Hsu & Hw).
  split; [done|]. split; [done|]. split; [done|].
  intros [m Hin].
  destruct (run_logged_keys current start evs m Hin) as [H1 H2].
  split; by apply dom_within_eq.
Qed.

(** The keys at work: logging from within another note still files the
    message under the start note. *)
Example log_keys_example :
  let a := run [Enters exampleOtherNote; Log (JsString "m"); TimerFires "n2"]
             (newBackendScriptApi exampleStartNote exampleStartNote) in
  BNote.noteId (currentNote a) = "n2"
  ∧ logMessages a !! "n1" = Some [JsString "m"]
  ∧ logMessages a !! "n2" = None
  ∧ wsSent a = [].
Proof.
  split; [vm_compute; reflexivity|]. split; [vm_compute; reflexivity|].
  split; vm_compute; reflexivity.
Qed.

(** * Further properties *)

(** ** The guards of the launcher *)

Lemma length_append s1 s2 :
  String.length (s1 +:+ s2) = (String.length s1 + String.length s2)%nat.
Proof.
  induction s1 as [|c s1 IH]; [done|].
  change (String c s1 +:+ s2) with (String c (s1 +:+ s2)). simpl. by rewrite IH.
Qed.

(** X1: the id guard accepts exactly the strings that hold six
    alphanumeric characters in a row, wherever in the string; so it refuses
    every string shorter than six characters and accepts every string that
    the documented rule allows. *)
Theorem id_guard_accepts_exactly_alnum_runs i :
  (matchesIdPattern i = true ↔ holdsAlnumRun i)
  ∧ ((String.length i < 6)%nat → matchesIdPattern i = false)
  ∧ (documentedIdRule i = true → matchesIdPattern i = true).
Proof.
  split; [apply matchesIdPattern_spec|]. split; [|apply documented_ids_pass_the_guard].
  intros Hlen. destruct (matchesIdPattern i) eqn:E; [|done].
  apply matchesIdPattern_spec in E as (pre & mid & post & -> & _ & Hmid).
  rewrite !length_append in Hlen. lia.
Qed.

Lemma allWhiteSpace_rev_app s acc :
  allWhiteSpace (String.rev_app s acc) = allWhiteSpace s && allWhiteSpace acc.
Proof.
  revert acc. induction s as [|c s IH]; intros acc; simpl; [done|].
  rewrite IH. simpl. by destruct (isWhiteSpace c), (allWhiteSpace s).
Qed.

Lemma allWhiteSpace_rev s : allWhiteSpace (String.rev s) = allWhiteSpace s.
Proof. unfold String.rev. rewrite allWhiteSpace_rev_app. simpl. apply andb_true_r. Qed.

Lemma allWhiteSpace_trimStart s : allWhiteSpace (trimStart s) = allWhiteSpace s.
Proof.
  induction s as [|c s IH]; simpl; [done|].
  destruct (isWhiteSpace c) eqn:E; simpl; [done|]. by rewrite E.
Qed.

Lemma trimStart_allWhiteSpace s : allWhiteSpace s = true → trimStart s = "".
Proof.
  induction s as [|c s IH]; simpl; [done|].
  destruct (isWhiteSpace c); [done|discriminate].
Qed.

(** [trim] leaves nothing exactly of the strings made of white space. *)
Lemma trim_empty_iff s : trim s = "" ↔ allWhiteSpace s = true.
Proof.
  split.
  - intros H.
    assert (Hw : allWhiteSpace (trim s) = allWhiteSpace s).
    { unfold trim.
      by rewrite allWhiteSpace_rev, allWhiteSpace_trimStart, allWhiteSpace_rev,
        allWhiteSpace_trimStart. }
    by rewrite H in Hw.
  - intros H. unfold trim. by rewrite (trimStart_allWhiteSpace _ H).
Qed.

Lemma truthyStr_trimOpt o :
  truthyStr (trimOpt o) = true ↔ ∃ t, o = Some t ∧ allWhiteSpace t = false.
Proof.
  destruct o as [t|]; simpl; [|split; [done|by intros (? & ? & _)]].
  rewrite negb_true_iff. split.
  - intros H. exists t. split; [done|].
    destruct (allWhiteSpace t) eqn:E; [|done].
    apply trim_empty_iff in E. rewrite E in H. done.
  - intros (t' & [= <-] & Ht).
    destruct (String.eqb (trim t) "") eqn:E; [|done].
    apply String.eqb_eq, trim_empty_iff in E. congruence.
Qed.

Lemma validate_accepted opts : validateLauncherOpts opts = None ↔ acceptedOpts opts.
Proof.
  split.
  - intros Hv. destruct (validate_ok _ Hv) as ((i & Hi & Hmatch) & _ & Hty).
    unfold validateLauncherOpts in Hv. passed_guards Hv.
    split; [exists i; split; [done|by apply matchesIdPattern_spec]|].
    split; [by apply truthyStr_trimOpt|].
    destruct Hty as [Hty | [Hty | Hty]]; rewrite Hty in *; simpl in *.
    + left. split; [done|]. by destruct (truthyStr (Opts.targetNoteId opts)).
    + right; left. split; [done|]. by destruct (truthyStr (Opts.scriptNoteId opts)).
    + right; right. split; [done|]. by destruct (truthyStr (Opts.widgetNoteId opts)).
  - intros ((i & Hi & Hrun) & Htitle & Hty).
    apply matchesIdPattern_spec in Hrun. apply truthyStr_trimOpt in Htitle.
    assert (Hne : truthyStr (Some i) = true).
    { destruct i; [done|done]. }
    unfold validateLauncherOpts. rewrite Hi, Hne, Htitle. simpl. rewrite Hrun. simpl.
    destruct Hty as [[-> ->] | [[-> ->] | [-> ->]]]; reflexivity.
Qed.

(** X2: for a title of ASCII characters, the guards let [opts] through
    exactly when the id holds six alphanumeric characters in a row, the
    title has a character that is no white space, the type is one of the
    three and the reference that goes with the type is given; any other
    [opts] makes the call fail and leaves the store as it was.  (White
    space beyond ASCII, which [String.prototype.trim] removes as well, is
    outside [isWhiteSpace].) *)
Theorem launcher_validation_characterised opts s :
  isAsciiString (str (Opts.title opts)) = true →
  (validateLauncherOpts opts = None ↔ acceptedOpts opts)
  ∧ (¬ acceptedOpts opts → ∃ e, createOrUpdateLauncher opts s = (inl e, s)).
Proof.
  intros _. split; [apply validate_accepted|].
  intros Hno. destruct (validateLauncherOpts opts) as [e|] eqn:Hv.
  - exists e. by apply validation_failure_no_mutation.
  - exfalso. by apply Hno, validate_accepted.
Qed.

Lemma launcher_validation_characterised_witness :
  (validateLauncherOpts exampleOpts = None ↔ acceptedOpts exampleOpts)
  ∧ (¬ acceptedOpts exampleOpts →
     ∃ e, createOrUpdateLauncher exampleOpts exampleBecca = (inl e, exampleBecca)).
Proof. apply (launcher_validation_characterised exampleOpts exampleBecca). reflexivity. Defined.

(** ** What a reconciliation keeps *)

Lemma reconcileTitle_noteId opts n s n' s' :
  reconcileTitle opts n s = (inr n', s') → BNote.noteId n' = BNote.noteId n.
Proof.
  unfold reconcileTitle, saveTitle, bind, modify, ret. case_bool_decide; by intros [= <- _].
Qed.

Section Preservation.

(** A relation between the store before and the store after that every
    step of the reconciliation of [opts] keeps is kept by the call. *)
Variable opts : Opts.t.
Variable R : Becca → Becca → Prop.
Hypothesis R_refl : ∀ s, R s s.
Hypothesis R_trans : ∀ s1 s2 s3, R s1 s2 → R s2 s3 → R s1 s3.
Hypothesis R_resolve : ∀ s r s', resolveLauncher opts s = (r, s') → R s s'.
Hypothesis R_title : ∀ n s r s',
  BNote.noteId n = launcherNoteId opts → reconcileTitle opts n s = (r, s') → R s s'.
Hypothesis R_parent : ∀ n s r s',
  BNote.noteId n = launcherNoteId opts → reconcileParent opts n s = (r, s') → R s s'.
Hypothesis R_relation : ∀ n s r s',
  BNote.noteId n = launcherNoteId opts → reconcileRelation opts n s = (r, s') → R s s'.
Hypothesis R_shortcut : ∀ n s r s',
  BNote.noteId n = launcherNoteId opts → reconcileShortcut opts n s = (r, s') → R s s'.
Hypothesis R_icon : ∀ n s r s',
  BNote.noteId n = launcherNoteId opts → reconcileIcon opts n s = (r, s') → R s s'.

Lemma createOrUpdateLauncher_keeps s r s' :
  wfBecca s → createOrUpdateLauncher opts s = (r, s') → R s s'.
Proof.
  intros Hwf. unfold createOrUpdateLauncher.
  destruct (validateLauncherOpts opts) as [e|]; [by intros [= _ <-]|].
  unfold bind at 1.
  destruct (resolveLauncher opts s) as [[e|n0] s0] eqn:E0; [intros [= _ <-]; by eapply R_resolve|].
  destruct (resolveLauncher_spec _ _ _ _ Hwf E0) as (_ & _ & Hid0 & _).
  pose proof (R_resolve _ _ _ E0) as H0.
  unfold bind at 1.
  destruct (reconcileTitle opts n0 s0) as [[e|n] s1] eqn:E1;
    [intros [= _ <-]; eapply R_trans; [done|by eapply R_title]|].
  assert (Hid : BNote.noteId n = launcherNoteId opts)
    by (rewrite <- Hid0; by eapply reconcileTitle_noteId).
  pose proof (R_trans _ _ _ H0 (R_title _ _ _ _ Hid0 E1)) as H1.
  unfold bind at 1.
  destruct (reconcileParent opts n s1) as [[e|[]] s2] eqn:E2;
    [intros [= _ <-]; eapply R_trans; [done|by eapply R_parent]|].
  pose proof (R_trans _ _ _ H1 (R_parent _ _ _ _ Hid E2)) as H2.
  unfold bind at 1.
  destruct (reconcileRelation opts n s2) as [[e|[]] s3] eqn:E3;
    [intros [= _ <-]; eapply R_trans; [done|by eapply R_relation]|].
  pose proof (R_trans _ _ _ H2 (R_relation _ _ _ _ Hid E3)) as H3.
  unfold bind at 1.
  destruct (reconcileShortcut opts n s3) as [[e|[]] s4] eqn:E4;
    [intros [= _ <-]; eapply R_trans; [done|by eapply R_shortcut]|].
  pose proof (R_trans _ _ _ H3 (R_shortcut _ _ _ _ Hid E4)) as H4.
  unfold bind at 1.
  destruct (reconcileIcon opts n s4) as [[e|[]] s5] eqn:E5;
    [intros [= _ <-]; eapply R_trans; [done|by eapply R_icon]|].
  intros [= _ <-]. eapply R_trans; [done|by eapply R_icon].
Qed.

End Preservation.

Lemma agreeOutside_refl i s : agreeOutside i s s.
Proof. by split. Qed.

Lemma agreeOutside_trans i s1 s2 s3 :
  agreeOutside i s1 s2 → agreeOutside i s2 s3 → agreeOutside i s1 s3.
Proof.
  intros [Hn1 Ha1] [Hn2 Ha2]. split; [|congruence].
  intros k Hk. by rewrite Hn2, Hn1.
Qed.

Lemma ownedAttr_noteId i t n a : ownedAttr i t n a = true → BAttribute.noteId a = i.
Proof.
  unfold ownedAttr. intros H. apply andb_prop in H as [H _]. apply andb_prop in H as [H _].
  by apply bool_decide_eq_true in H.
Qed.

Lemma filter_outside_updateFirst i t n v (l : list BAttribute.t) :
  filter (λ a, BAttribute.noteId a ≠ i) (updateFirst (ownedAttr i t n) v l)
    = filter (λ a, BAttribute.noteId a ≠ i) l.
Proof.
  induction l as [|a l IH]; [done|]. simpl.
  destruct (ownedAttr i t n a) eqn:E.
  - apply ownedAttr_noteId in E. rewrite !filter_cons. simpl. by rewrite !decide_False by auto.
  - rewrite !filter_cons, IH. done.
Qed.

Lemma filter_outside_remove i t n (l : list BAttribute.t) :
  filter (λ a, BAttribute.noteId a ≠ i) (filter (λ a, ownedAttr i t n a = false) l)
    = filter (λ a, BAttribute.noteId a ≠ i) l.
Proof.
  induction l as [|a l IH]; [done|]. rewrite !filter_cons.
  destruct (ownedAttr i t n a) eqn:E.
  - apply ownedAttr_noteId in E. rewrite decide_False by done. by rewrite decide_False by auto.
  - rewrite decide_True by done. rewrite filter_cons, IH. done.
Qed.

Lemma setAttribute_outside i t n v s r s' :
  setAttribute i t n v s = (r, s') → agreeOutside i s s'.
Proof.
  unfold setAttribute, bind, get, modify, newEntityId.
  destruct (existsb (ownedAttr i t n) (attributes s)); intros [= _ <-]; (split; [done|]); simpl.
  - apply filter_outside_updateFirst.
  - rewrite filter_app, filter_cons. simpl. rewrite decide_False by auto.
    by rewrite filter_nil, app_nil_r.
Qed.

Lemma removeLabel_outside i n s r s' :
  removeLabel i n s = (r, s') → agreeOutside i s s'.
Proof.
  unfold removeLabel, modify. intros [= _ <-]. split; [done|]. simpl.
  apply filter_outside_remove.
Qed.

(** X3: a call changes no note other than the launcher and no attribute of
    any other note: whether it succeeds or fails, every other note is held
    as before and the attributes of the other notes are the same, in the
    same order. *)
Theorem createOrUpdateLauncher_touches_only_the_launcher opts s :
  wfBecca s →
  agreeOutside (launcherNoteId opts) s (snd (createOrUpdateLauncher opts s)).
Proof.
  intros Hwf.
  apply (createOrUpdateLauncher_keeps opts (agreeOutside (launcherNoteId opts)))
    with (r := fst (createOrUpdateLauncher opts s)); try done.
  - apply agreeOutside_trans.
  - intros s0 r s' H.
    destruct (getNote (launcherNoteId opts) s0) as [m|] eqn:En.
    + rewrite (resolveLauncher_found _ _ _ En) in H. injection H as _ <-.
      apply agreeOutside_refl.
    + destruct (getNote (launcherParent opts) s0) as [parent|] eqn:Ep.
      * destruct (resolveLauncher_created _ _ _ En Ep)
          as (n & b & s1 & Hrun & _ & Hnotes & _ & _ & _ & Hat).
        rewrite Hrun in H. injection H as _ <-. split; [|by rewrite Hat].
        intros k Hk. by rewrite Hnotes, lookup_insert_ne.
      * destruct (resolveLauncher_missing_parent _ _ En Ep) as [e He].
        rewrite He in H. injection H as _ <-. apply agreeOutside_refl.
  - intros n s0 r s' Hid. unfold reconcileTitle, saveTitle, bind, modify, ret.
    case_bool_decide; intros [= _ <-]; [|apply agreeOutside_refl].
    split; [|done]. intros k Hk. simpl. rewrite lookup_insert_ne; [done|congruence].
  - intros n s0 r s' Hid H.
    destruct (reconcileParent_run opts n s0) as (s1 & Hrun & Hn & Ha & _).
    rewrite Hrun in H. injection H as _ <-. split; [by rewrite Hn|by rewrite Ha].
  - intros n s0 r s' Hid. unfold reconcileRelation, setRelation. rewrite Hid.
    repeat case_match; try apply setAttribute_outside.
    intros [= _ <-]. apply agreeOutside_refl.
  - intros n s0 r s' Hid. unfold reconcileShortcut, setLabel. rewrite Hid.
    case_match; [apply setAttribute_outside|apply removeLabel_outside].
  - intros n s0 r s' Hid. unfold reconcileIcon, setLabel. rewrite Hid.
    case_match; [apply setAttribute_outside|apply removeLabel_outside].
  - apply surjective_pairing.
Qed.

Lemma createOrUpdateLauncher_touches_only_the_launcher_witness :
  agreeOutside (launcherNoteId exampleOpts) exampleBeccaWithLauncher
    (snd (createOrUpdateLauncher exampleOpts exampleBeccaWithLauncher)).
Proof.
  apply (createOrUpdateLauncher_touches_only_the_launcher exampleOpts exampleBeccaWithLauncher).
  apply exampleBeccaWithLauncher_wf.
Defined.

Lemma createOrUpdateLauncher_keeps_other_attributes opts s t nm :
  wfBecca s →
  (t, nm) ≠ ("relation", fst (launcherRelation opts)) →
  (t, nm) ≠ ("label", "keyboardShortcut") → (t, nm) ≠ ("label", "iconClass") →
  findAttr (launcherNoteId opts) t nm (snd (createOrUpdateLauncher opts s))
    = findAttr (launcherNoteId opts) t nm s.
Proof.
  intros Hwf Hrel Hkb Hicon.
  apply (createOrUpdateLauncher_keeps opts
           (λ s s', findAttr (launcherNoteId opts) t nm s' = findAttr (launcherNoteId opts) t nm s))
    with (r := fst (createOrUpdateLauncher opts s)); try done.
  - intros s1 s2 s3 H1 H2. by rewrite H2.
  - intros s0 r s' H. unfold findAttr.
    destruct (getNote (launcherNoteId opts) s0) as [m|] eqn:En.
    + rewrite (resolveLauncher_found _ _ _ En) in H. by injection H as _ <-.
    + destruct (getNote (launcherParent opts) s0) as [parent|] eqn:Ep.
      * destruct (resolveLauncher_created _ _ _ En Ep)
          as (n & b & s1 & Hrun & _ & _ & _ & _ & _ & Hat).
        rewrite Hrun in H. injection H as _ <-. by rewrite Hat.
      * destruct (resolveLauncher_missing_parent _ _ En Ep) as [e He].
        rewrite He in H. by injection H as _ <-.
  - intros n s0 r s' Hid. unfold reconcileTitle, saveTitle, bind, modify, ret.
    case_bool_decide; by intros [= _ <-].
  - intros n s0 r s' Hid H.
    destruct (reconcileParent_run opts n s0) as (s1 & Hrun & _ & Ha & _).
    rewrite Hrun in H. injection H as _ <-. unfold findAttr. by rewrite Ha.
  - intros n s0 r s' Hid. unfold reconcileRelation, setRelation, launcherRelation in *.
    rewrite Hid.
    repeat case_match; simpl in *;
      try (intros Hset;
           match type of Hset with
           | setAttribute ?i ?ty ?k ?v s0 = _ =>
               destruct (setAttribute_run i ty k v s0) as (s1 & Hrun & _ & _ & _ & Hother)
           end;
           rewrite Hrun in Hset; injection Hset as _ <-; apply Hother; congruence).
    unfold throw. by intros [= _ <-].
  - intros n s0 r s' Hid H.
    destruct (reconcileShortcut_run opts n s0) as (s1 & Hrun & _ & _ & _ & Hother).
    rewrite Hrun in H. injection H as _ <-. rewrite <- Hid. by apply Hother.
  - intros n s0 r s' Hid H.
    destruct (reconcileIcon_run opts n s0) as (s1 & Hrun & _ & _ & _ & Hother).
    rewrite Hrun in H. injection H as _ <-. rewrite <- Hid. by apply Hother.
  - apply surjective_pairing.
Qed.

(** X4: a launcher reconciled under one type and then, under the same id,
    under another type carries the relation of the new type and still
    carries the relation of the old type with its old value: the call sets
    the relation of the type it is given and removes no other relation. *)
Theorem launcher_type_change_keeps_old_relation o1 o2 s :
  validateLauncherOpts o1 = None → validateLauncherOpts o2 = None →
  Opts.id o2 = Opts.id o1 →
  fst (launcherRelation o2) ≠ fst (launcherRelation o1) →
  wfBecca s → resolvable o1 s →
  ∃ n1 s1 n2 s2,
    createOrUpdateLauncher o1 s = (inr n1, s1)
    ∧ createOrUpdateLauncher o2 s1 = (inr n2, s2)
    ∧ getRelationValue (launcherNoteId o1) (fst (launcherRelation o2)) s2
        = Some (snd (launcherRelation o2))
    ∧ getRelationValue (launcherNoteId o1) (fst (launcherRelation o1)) s2
        = Some (snd (launcherRelation o1)).
Proof.
  intros Hv1 Hv2 Hid Hne Hwf Hres.
  destruct (createOrUpdateLauncher_succeeds _ _ Hv1 Hwf Hres)
    as (n1 & s1 & Hrun1 & Hid1 & Hrec1 & Hwf1).
  assert (Hsame : launcherNoteId o2 = launcherNoteId o1)
    by (unfold launcherNoteId; by rewrite Hid).
  assert (Hres2 : resolvable o2 s1).
  { left. rewrite Hsame. destruct Hrec1 as (-> & _). by eexists. }
  destruct (createOrUpdateLauncher_succeeds _ _ Hv2 Hwf1 Hres2)
    as (n2 & s2 & Hrun2 & Hid2 & Hrec2 & _).
  exists n1, s1, n2, s2. split; [done|]. split; [done|].
  destruct Hrec1 as (_ & _ & _ & _ & Hrel1 & _).
  destruct Hrec2 as (_ & _ & _ & _ & Hrel2 & _).
  rewrite Hsame in Hrel2. split; [done|].
  pose proof (createOrUpdateLauncher_keeps_other_attributes o2 s1 "relation"
                (fst (launcherRelation o1)) Hwf1) as Hkeep.
  rewrite Hrun2, Hsame in Hkeep. simpl in Hkeep.
  unfold getRelationValue in *. rewrite Hkeep; [done|congruence|done|done].
Qed.

Lemma launcher_type_change_keeps_old_relation_witness :
  ∃ n1 s1 n2 s2,
    createOrUpdateLauncher exampleOpts exampleBecca = (inr n1, s1)
    ∧ createOrUpdateLauncher exampleOptsScript s1 = (inr n2, s2)
    ∧ getRelationValue (launcherNoteId exampleOpts) (fst (launcherRelation exampleOptsScript)) s2
        = Some (snd (launcherRelation exampleOptsScript))
    ∧ getRelationValue (launcherNoteId exampleOpts) (fst (launcherRelation exampleOpts)) s2
        = Some (snd (launcherRelation exampleOpts)).
Proof.
  apply (launcher_type_change_keeps_old_relation exampleOpts exampleOptsScript exampleBecca).
  - reflexivity.
  - reflexivity.
  - reflexivity.
  - vm_compute. discriminate.
  - apply exampleBecca_wf.
  - apply exampleBecca_resolvable.
Defined.

(** ** Hiding a launcher and showing it again *)


Lemma set_parentNoteId_same b :
  BBranch.set_parentNoteId (BBranch.parentNoteId b) b = b.
Proof. by destruct b. Qed.



Lemma flipVisible_flipVisible opts : flipVisible (flipVisible opts) = opts.
Proof. destruct opts as [? ? ? v ? ? ? ? ?]. unfold flipVisible. simpl. by destruct v. Qed.





(** ** The three ways to create a note *)

Lemma createNoteUnit_without_attributes createAttribute extraOptions s :
  default [] (ExtraOptions.attributes extraOptions) = [] →
  createNoteUnit createAttribute extraOptions s
    = createNewNote (ExtraOptions.toParams extraOptions) s.
Proof.
  intros H. unfold createNoteUnit. rewrite H. simpl. unfold bind, ret.
  by destruct (createNewNote _ s) as [[e|r] s1].
Qed.

Lemma writtenOptions_params parentNote parentNoteId title content extraOptions :
  ExtraOptions.toParams (writtenOptions parentNote parentNoteId title content extraOptions)
  = if truthy (ExtraOptions.json extraOptions)
    then NoteParams.mk None parentNoteId title
           (JSON_stringify (orElse (contentOrDefault content) (JsObject []))) "code"
           (Some "application/json")
    else NoteParams.mk None parentNoteId title (contentOrDefault content)
           (if String.eqb (BNote.type parentNote) "code" then "code" else "text")
           (Some (if String.eqb (BNote.type parentNote) "code"
                  then BNote.mime parentNote else "text/html")).
Proof.
  unfold writtenOptions, resolveOptions, enterOptions. simpl.
  by destruct (truthy (ExtraOptions.json extraOptions)).
Qed.

Section CreationProperties.

Variable createAttribute : AttributeParams.t → Eff Becca unit.

(** X6: when the parent resolves, the outcome of [createNote] does not
    depend on what the caller had put in the fields [parentNoteId],
    [title], [content], [type] and [mime] of [extraOptions]: two objects
    that agree on the other fields give the same result, the same object
    afterwards and the same store.  A type or a mime set by the caller has
    no effect. *)
Theorem createNote_ignores_caller_fields inTransaction parentNoteId title content eo1 eo2 s
    parentNote :
  getNote parentNoteId s = Some parentNote →
  ExtraOptions.json eo1 = ExtraOptions.json eo2 →
  ExtraOptions.isProtected eo1 = ExtraOptions.isProtected eo2 →
  ExtraOptions.attributes eo1 = ExtraOptions.attributes eo2 →
  createNote createAttribute inTransaction parentNoteId title content eo1 s
    = createNote createAttribute inTransaction parentNoteId title content eo2 s.
Proof.
  intros Hparent Hjson Hprot Hattrs.
  rewrite !(createNote_found _ _ _ _ _ _ _ _ Hparent).
  assert (Heq : writtenOptions parentNote parentNoteId title content eo1
                = writtenOptions parentNote parentNoteId title content eo2).
  { unfold writtenOptions, resolveOptions, enterOptions.
    destruct eo1, eo2. simpl in *. by subst. }
  by rewrite Heq.
Qed.

(** X7: with no attribute to create ([attributes] missing or empty) and a
    parent that resolves, [createNote] succeeds, inside a transaction or
    not and without calling the attribute service: the store gains the
    note under its id and the branch that attaches it to the parent, and
    nothing else changes. *)
Theorem createNote_without_attributes inTransaction parentNoteId title content extraOptions s
    parentNote :
  getNote parentNoteId s = Some parentNote →
  default [] (ExtraOptions.attributes extraOptions) = [] →
  ∃ note branch s',
    createNote createAttribute inTransaction parentNoteId title content extraOptions s
      = (inr (note, branch),
         writtenOptions parentNote parentNoteId title content extraOptions, s')
    ∧ notes s' = <[BNote.noteId note := note]> (notes s)
    ∧ branches s' = branches s ++ [branch]
    ∧ attributes s' = attributes s
    ∧ BNote.title note = title
    ∧ BBranch.noteId branch = BNote.noteId note
    ∧ BBranch.parentNoteId branch = parentNoteId.
Proof.
  intros Hparent Hattrs.
  set (eo := writtenOptions parentNote parentNoteId title content extraOptions).
  assert (Hp : getNote (NoteParams.parentNoteId (ExtraOptions.toParams eo)) s = Some parentNote).
  { unfold eo. rewrite writtenOptions_params.
    by destruct (truthy (ExtraOptions.json extraOptions)). }
  destruct (createNewNote_run _ _ _ Hp)
    as (note & branch & s' & Hrun & Hnotes & Hbr & Hat & Htitle & _ & _ & _ & _ & Hbn & Hbp).
  exists note, branch, s'.
  assert (Hunit : createNoteUnit createAttribute eo s = (inr (note, branch), s')).
  { rewrite createNoteUnit_without_attributes; [done|].
    unfold eo. by rewrite writtenOptions_attributes. }
  rewrite (createNote_found _ _ _ _ _ _ _ _ Hparent). cbv zeta. fold eo.
  rewrite (proj2 (transactional_inr inTransaction _ _ _ _) Hunit).
  repeat split; try done.
  - rewrite Htitle. unfold eo. rewrite writtenOptions_params.
    by destruct (truthy (ExtraOptions.json extraOptions)).
  - rewrite Hbp. unfold eo. rewrite writtenOptions_params.
    by destruct (truthy (ExtraOptions.json extraOptions)).
Qed.

Lemma JSON_stringify_empty_object : JSON_stringify (JsObject []) = JsString "{}".
Proof. reflexivity. Qed.

Lemma JSON_stringify_falsy content :
  truthy content = false → content ≠ JsUndefined →
  JSON_stringify content ≠ JsString "{}".
Proof.
  intros Hfalsy Hdef. destruct content as [| |[]|n|str| |]; try done.
  simpl in Hfalsy. apply negb_false_iff, Z.eqb_eq in Hfalsy. by subst.
Qed.

Lemma createNote_json_params inTransaction parentNoteId title content extraOptions s
    parentNote :
  getNote parentNoteId s = Some parentNote →
  truthy (ExtraOptions.json extraOptions) = true →
  default [] (ExtraOptions.attributes extraOptions) = [] →
  createNote createAttribute inTransaction parentNoteId title content extraOptions s
  = (let '(r, s') :=
       createNewNote
         (NoteParams.mk None parentNoteId title
            (JSON_stringify (orElse (contentOrDefault content) (JsObject []))) "code"
            (Some "application/json")) s in
     (r, writtenOptions parentNote parentNoteId title content extraOptions, s')).
Proof.
  intros Hparent Hjson Hattrs.
  rewrite (createNote_found _ _ _ _ _ _ _ _ Hparent). cbv zeta.
  assert (Hunit : createNoteUnit createAttribute
                    (writtenOptions parentNote parentNoteId title content extraOptions) s
                  = createNewNote
                      (NoteParams.mk None parentNoteId title
                         (JSON_stringify (orElse (contentOrDefault content) (JsObject [])))
                         "code" (Some "application/json")) s).
  { rewrite createNoteUnit_without_attributes by by rewrite writtenOptions_attributes.
    by rewrite writtenOptions_params, Hjson. }
  destruct (createNewNote_run
              (NoteParams.mk None parentNoteId title
                 (JSON_stringify (orElse (contentOrDefault content) (JsObject []))) "code"
                 (Some "application/json")) s parentNote Hparent)
    as (note & branch & s' & Hrun & _).
  rewrite Hrun in Hunit |- *.
  by rewrite (proj2 (transactional_inr inTransaction _ _ _ _) Hunit).
Qed.


(** X9: on a content that is falsy but given ([null], [false], [0] or the
    empty string) the two differ: [createNote] with [json] set stores the
    serialization of the empty object, [createDataNote] that of the
    content itself. *)
Theorem json_notes_differ_on_falsy_content inTransaction parentNoteId title content
    extraOptions s parentNote :
  getNote parentNoteId s = Some parentNote →
  truthy content = false → content ≠ JsUndefined →
  truthy (ExtraOptions.json extraOptions) = true →
  default [] (ExtraOptions.attributes extraOptions) = [] →
  ∃ note1 branch1 eo' s1 note2 branch2 s2,
    createNote createAttribute inTransaction parentNoteId title content extraOptions s
      = (inr (note1, branch1), eo', s1)
    ∧ createDataNote parentNoteId title content s = (inr (note2, branch2), s2)
    ∧ BNote.content note1 = JsString "{}"
    ∧ BNote.content note2 = JSON_stringify content
    ∧ BNote.content note1 ≠ BNote.content note2.
Proof.
  intros Hparent Hfalsy Hdef Hjson Hattrs.
  rewrite (createNote_json_params _ _ _ _ _ _ _ Hparent Hjson Hattrs).
  unfold createDataNote.
  assert (Hor : orElse (contentOrDefault content) (JsObject []) = JsObject []).
  { unfold orElse. by destruct content; try done; simpl in *; rewrite Hfalsy. }
  assert (Hown : match content with JsUndefined => JsObject [] | _ => content end = content).
  { by destruct content. }
  rewrite Hor, Hown.
  destruct (createNewNote_run
              (NoteParams.mk None parentNoteId title (JSON_stringify (JsObject [])) "code"
                 (Some "application/json")) s parentNote Hparent)
    as (note1 & branch1 & s1 & Hrun1 & _ & _ & _ & _ & _ & _ & Hc1 & _).
  destruct (createNewNote_run
              (NoteParams.mk None parentNoteId title (JSON_stringify content) "code"
                 (Some "application/json")) s parentNote Hparent)
    as (note2 & branch2 & s2 & Hrun2 & _ & _ & _ & _ & _ & _ & Hc2 & _).
  rewrite Hrun1, Hrun2. simpl in Hc1, Hc2.
  exists note1, branch1, (writtenOptions parentNote parentNoteId title content extraOptions),
    s1, note2, branch2, s2.
  repeat split; try done.
  rewrite Hc1, Hc2. intros Heq. by apply (JSON_stringify_falsy content).
Qed.

(** X10: under a parent that is a code note, [createTextNote] and
    [createNote] (no JSON, no attributes) give notes of different types:
    the first is a text note, the second inherits the type [code] and the
    mime of the parent.  Title and content are the same. *)
Theorem createTextNote_does_not_inherit inTransaction parentNoteId title content extraOptions
    s parentNote :
  getNote parentNoteId s = Some parentNote →
  BNote.type parentNote = "code" →
  truthy (ExtraOptions.json extraOptions) = false →
  default [] (ExtraOptions.attributes extraOptions) = [] →
  ∃ note1 branch1 eo' s1 note2 branch2 s2,
    createNote createAttribute inTransaction parentNoteId title content extraOptions s
      = (inr (note1, branch1), eo', s1)
    ∧ createTextNote parentNoteId title content s = (inr (note2, branch2), s2)
    ∧ BNote.type note1 = "code" ∧ BNote.mime note1 = BNote.mime parentNote
    ∧ BNote.type note2 = "text"
    ∧ BNote.title note1 = BNote.title note2
    ∧ BNote.content note1 = BNote.content note2.
Proof.
  intros Hparent Hcode Hjson Hattrs.
  rewrite (createNote_found _ _ _ _ _ _ _ _ Hparent). cbv zeta.
  set (eo := writtenOptions parentNote parentNoteId title content extraOptions).
  assert (Hparams : ExtraOptions.toParams eo
                    = NoteParams.mk None parentNoteId title (contentOrDefault content) "code"
                        (Some (BNote.mime parentNote))).
  { unfold eo. by rewrite writtenOptions_params, Hjson, Hcode. }
  assert (Hunit : createNoteUnit createAttribute eo s
                  = createNewNote (ExtraOptions.toParams eo) s).
  { apply createNoteUnit_without_attributes. unfold eo.
    by rewrite writtenOptions_attributes. }
  rewrite Hparams in Hunit.
  destruct (createNewNote_run
              (NoteParams.mk None parentNoteId title (contentOrDefault content) "code"
                 (Some (BNote.mime parentNote))) s parentNote Hparent)
    as (note1 & branch1 & s1 & Hrun1 & _ & _ & _ & Ht1 & Hty1 & Hm1 & Hc1 & _).
  unfold createTextNote.
  destruct (createNewNote_run
              (NoteParams.mk None parentNoteId title (contentOrDefault content) "text" None)
              s parentNote Hparent)
    as (note2 & branch2 & s2 & Hrun2 & _ & _ & _ & Ht2 & Hty2 & _ & Hc2 & _).
  rewrite Hrun1 in Hunit.
  rewrite (proj2 (transactional_inr inTransaction _ _ _ _) Hunit), Hrun2.
  exists note1, branch1, eo, s1, note2, branch2, s2.
  simpl in *. repeat split; try done; congruence.
Qed.

End CreationProperties.

Lemma createNote_ignores_caller_fields_witness :
  createNote exampleCreateAttribute false "script1" "T" (JsString "c") emptyExtraOptions
    exampleBecca
  = createNote exampleCreateAttribute false "script1" "T" (JsString "c") exampleStrayOptions
      exampleBecca.
Proof.
  apply (createNote_ignores_caller_fields exampleCreateAttribute false "script1" "T"
           (JsString "c") emptyExtraOptions exampleStrayOptions exampleBecca
           (exampleNote "script1" "A script" "code" "application/javascript"));
    reflexivity.
Defined.

Lemma createNote_without_attributes_witness :
  ∃ note branch s',
    createNote exampleCreateAttribute false "root" "T" (JsString "c") emptyExtraOptions
      exampleBecca
      = (inr (note, branch),
         writtenOptions (exampleNote "root" "root" "text" "text/html") "root" "T"
           (JsString "c") emptyExtraOptions, s')
    ∧ notes s' = <[BNote.noteId note := note]> (notes exampleBecca)
    ∧ branches s' = branches exampleBecca ++ [branch]
    ∧ attributes s' = attributes exampleBecca
    ∧ BNote.title note = "T"
    ∧ BBranch.noteId branch = BNote.noteId note
    ∧ BBranch.parentNoteId branch = "root".
Proof.
  apply (createNote_without_attributes exampleCreateAttribute false "root" "T" (JsString "c")
           emptyExtraOptions exampleBecca (exampleNote "root" "root" "text" "text/html"));
    reflexivity.
Defined.


Lemma json_notes_differ_on_falsy_content_witness :
  ∃ note1 branch1 eo' s1 note2 branch2 s2,
    createNote exampleCreateAttribute false "root" "T" (JsNumber 0) exampleJsonOptions
      exampleBecca
      = (inr (note1, branch1), eo', s1)
    ∧ createDataNote "root" "T" (JsNumber 0) exampleBecca = (inr (note2, branch2), s2)
    ∧ BNote.content note1 = JsString "{}"
    ∧ BNote.content note2 = JSON_stringify (JsNumber 0)
    ∧ BNote.content note1 ≠ BNote.content note2.
Proof.
  apply (json_notes_differ_on_falsy_content exampleCreateAttribute false "root" "T"
           (JsNumber 0) exampleJsonOptions exampleBecca
           (exampleNote "root" "root" "text" "text/html"));
    [reflexivity | reflexivity | discriminate | reflexivity | reflexivity].
Defined.

Lemma createTextNote_does_not_inherit_witness :
  ∃ note1 branch1 eo' s1 note2 branch2 s2,
    createNote exampleCreateAttribute false "script1" "T" (JsString "c") emptyExtraOptions
      exampleBecca
      = (inr (note1, branch1), eo', s1)
    ∧ createTextNote "script1" "T" (JsString "c") exampleBecca = (inr (note2, branch2), s2)
    ∧ BNote.type note1 = "code"
    ∧ BNote.mime note1
      = BNote.mime (exampleNote "script1" "A script" "code" "application/javascript")
    ∧ BNote.type note2 = "text"
    ∧ BNote.title note1 = BNote.title note2
    ∧ BNote.content note1 = BNote.content note2.
Proof.
  apply (createTextNote_does_not_inherit exampleCreateAttribute false "script1" "T"
           (JsString "c") emptyExtraOptions exampleBecca
           (exampleNote "script1" "A script" "code" "application/javascript"));
    reflexivity.
Defined.

(** ** The log over a whole run *)

Lemma delivered_snoc sent w :
  delivered (sent ++ [w]) = delivered sent ++ default [] (WsMessage.messages w).
Proof. unfold delivered. rewrite bind_app. simpl. by rewrite app_nil_r. Qed.

Lemma logged_snoc evs ev :
  logged (evs ++ [ev]) = logged evs ++ match ev with Log m => [m] | _ => [] end.
Proof. unfold logged. rewrite bind_app. simpl. by rewrite app_nil_r. Qed.

Lemma log_infoLog m a : infoLog (log m a) = infoLog a ++ [m].
Proof. reflexivity. Qed.

Lemma timerFires_infoLog key a : infoLog (timerFires key a) = infoLog a.
Proof.
  unfold timerFires. destruct (logSpacedUpdates a !! key) as [su|]; [|done].
  by destruct (changed su).
Qed.

(** What a firing does to a key with a flush scheduled. *)
Lemma timerFires_fires key a :
  logInv a → scheduled key a = true →
  ∃ m ms, pending key a = m :: ms
    ∧ wsSent (timerFires key a)
      = wsSent a ++ [WsMessage.mk "api-log-messages" key (Some (m :: ms))]
    ∧ logMessages (timerFires key a) = <[key := []]> (logMessages a)
    ∧ scheduled key (timerFires key a) = false
    ∧ ∀ k, k ≠ key → scheduled k (timerFires key a) = scheduled k a.
Proof.
  intros Hinv Hs. unfold scheduled in Hs.
  destruct (logSpacedUpdates a !! key) as [su|] eqn:E; [|done].
  destruct (Hinv _ _ E) as [Hkey Hpend]. destruct (Hpend Hs) as (m & ms & Hm).
  exists m, ms. rewrite (timerFires_scheduled _ _ _ E Hs), Hkey.
  unfold updater, pending, scheduled. simpl. rewrite Hm, lookup_insert_eq. simpl.
  repeat split; try done. intros k Hk. by rewrite lookup_insert_ne.
Qed.

(** The other half of [logInv]: messages are pending under a key only
    while a flush of the key is scheduled. *)
Lemma step_pending_scheduled a ev :
  logInv a →
  (∀ k, pending k a ≠ [] → scheduled k a = true) →
  ∀ k, pending k (step a ev) ≠ [] → scheduled k (step a ev) = true.
Proof.
  intros Hinv Hps k. destruct ev as [m|key|n]; cbn [step]; [| |apply Hps].
  - unfold pending, scheduled. rewrite log_logMessages, log_logSpacedUpdates.
    rewrite !lookup_insert. case_decide as Hk; [done|]. apply Hps.
  - destruct (scheduled key a) eqn:Hs; [|rewrite timerFires_idle by done; apply Hps].
    destruct (timerFires_fires key a Hinv Hs) as (m & ms & _ & _ & Hmsgs & _ & Hother).
    destruct (decide (k = key)) as [->|Hk].
    + unfold pending. by rewrite Hmsgs, lookup_insert_eq.
    + rewrite (Hother k Hk). unfold pending. rewrite Hmsgs, lookup_insert_ne by done.
      apply Hps.
Qed.

Lemma run_pending_scheduled current start evs :
  ∀ k, pending k (run evs (newBackendScriptApi current start)) ≠ [] →
       scheduled k (run evs (newBackendScriptApi current start)) = true.
Proof.
  induction evs as [|ev evs IH] using rev_ind; [done|].
  rewrite run_snoc. destruct (run_keys current start evs) as (_ & Hinv & _).
  by apply step_pending_scheduled.
Qed.

(** A step moves messages from the pending sequence of the start note to
    the clients, or appends the message logged; it loses none, repeats
    none and keeps their order. *)
Lemma step_conserves a ev :
  logInv a →
  dom (logSpacedUpdates a) ⊆ {[BNote.noteId (startNote a)]} →
  delivered (wsSent (step a ev)) ++ pending (BNote.noteId (startNote a)) (step a ev)
  = (delivered (wsSent a) ++ pending (BNote.noteId (startNote a)) a)
      ++ match ev with Log m => [m] | _ => [] end.
Proof.
  intros Hinv Hsu. destruct ev as [m|key|n]; cbn [step]; [| |by rewrite app_nil_r].
  - rewrite log_wsSent. unfold pending at 1. rewrite log_logMessages, lookup_insert_eq.
    simpl. by rewrite app_assoc.
  - rewrite app_nil_r.
    destruct (scheduled key a) eqn:Hs; [|by rewrite timerFires_idle].
    assert (Hkey : key = BNote.noteId (startNote a)).
    { unfold scheduled in Hs. destruct (logSpacedUpdates a !! key) as [su|] eqn:E; [|done].
      assert (Hin : key ∈ dom (logSpacedUpdates a)) by (apply elem_of_dom; by eexists).
      apply Hsu in Hin. by apply elem_of_singleton in Hin. }
    destruct (timerFires_fires key a Hinv Hs) as (m & ms & Hp & Hsent & Hmsgs & _).
    rewrite <- Hkey. rewrite Hsent, delivered_snoc. unfold pending at 1.
    rewrite Hmsgs, lookup_insert_eq, Hp. simpl. by rewrite app_nil_r.
Qed.

Lemma run_conserves current start evs :
  let a := run evs (newBackendScriptApi current start) in
  delivered (wsSent a) ++ pending (BNote.noteId start) a = logged evs
  ∧ infoLog a = logged evs.
Proof.
  cbv zeta. induction evs as [|ev evs IH] using rev_ind; [done|].
  destruct IH as [IHd IHi].
  destruct (run_keys current start evs) as (Hid & Hinv & _ & Hsu & _).
  rewrite run_snoc, logged_snoc. split.
  - rewrite <- Hid in Hsu |- *. rewrite (step_conserves _ ev Hinv Hsu).
    rewrite Hid. by rewrite IHd.
  - rewrite <- IHi. destruct ev as [m|key|n]; cbn [step].
    + apply log_infoLog.
    + by rewrite timerFires_infoLog, app_nil_r.
    + by rewrite app_nil_r.
Qed.

(** X11: over any run of an instance (calls of [log], firings of timers
    and changes of the current note, in any order), the messages sent to
    the clients so far, followed by the ones still pending under the start
    note, are the messages logged, each once and in call order; the
    server log holds the same sequence. *)
Theorem logged_messages_are_delivered_once current start evs :
  let a := run evs (newBackendScriptApi current start) in
  delivered (wsSent a) ++ pending (BNote.noteId start) a = logged evs
  ∧ infoLog a = logged evs.
Proof. apply run_conserves. Qed.

(** X12: no message sent to the clients over a run is empty: each is of
    type [api-log-messages] and holds at least one log message. *)
Theorem sent_batches_are_not_empty current start evs w :
  w ∈ wsSent (run evs (newBackendScriptApi current start)) →
  WsMessage.type w = "api-log-messages"
  ∧ ∃ m ms, WsMessage.messages w = Some (m :: ms).
Proof.
  induction evs as [|ev evs IH] using rev_ind.
  - intros Hin. by apply elem_of_nil in Hin.
  - rewrite run_snoc. destruct (run_keys current start evs) as (_ & Hinv & _).
    destruct ev as [m|key|n]; cbn [step]; [by rewrite log_wsSent| |done].
    destruct (scheduled key (run evs (newBackendScriptApi current start))) eqn:Hs;
      [|by rewrite timerFires_idle].
    destruct (timerFires_fires key _ Hinv Hs) as (m & ms & _ & Hsent & _).
    rewrite Hsent. intros Hin. apply elem_of_app in Hin as [Hin|Hin]; [by apply IH|].
    apply list_elem_of_singleton in Hin. subst w. simpl. eauto.
Qed.

(** X13: no message is left behind: at any point of a run, messages are
    pending under a key only while a flush of that key is scheduled, and
    once the timer of the start note has fired, all the messages logged
    have been sent and none is pending. *)
Theorem pending_messages_get_flushed current start evs :
  let a := run evs (newBackendScriptApi current start) in
  (∀ k, pending k a ≠ [] → scheduled k a = true)
  ∧ delivered (wsSent (timerFires (BNote.noteId start) a)) = logged evs
  ∧ pending (BNote.noteId start) (timerFires (BNote.noteId start) a) = [].
Proof.
  cbv zeta. split; [apply run_pending_scheduled|].
  pose proof (run_conserves current start (evs ++ [TimerFires (BNote.noteId start)])) as Hc.
  cbv zeta in Hc. rewrite run_snoc, logged_snoc, app_nil_r in Hc. cbn [step] in Hc.
  destruct Hc as [Hc _].
  assert (Hp : pending (BNote.noteId start)
                 (timerFires (BNote.noteId start) (run evs (newBackendScriptApi current start)))
               = []).
  { pose proof (run_pending_scheduled current start
                  (evs ++ [TimerFires (BNote.noteId start)]) (BNote.noteId start)) as Hps.
    rewrite run_snoc in Hps. cbn [step] in Hps.
    destruct (pending _ (timerFires _ _)) as [|x xs] eqn:E; [done|].
    specialize (Hps ltac:(done)).
    destruct (run_keys current start evs) as (_ & Hinv & _).
    destruct (scheduled (BNote.noteId start) (run evs (newBackendScriptApi current start)))
      eqn:Hs.
    - destruct (timerFires_fires _ _ Hinv Hs) as (m & ms & _ & _ & _ & Hidle & _). congruence.
    - rewrite timerFires_idle in Hps by done. congruence. }
  split; [|done]. by rewrite Hp, app_nil_r in Hc.
Qed.

(** ** The defaults of a search *)

Lemma defaultSearchParams_lookup searchParams k :
  defaultSearchParams searchParams !! k
  = if bool_decide (k ∈ ["includeArchivedNotes"; "ignoreHoistedNote"])
       && isUndefined (searchParams !! k)
    then Some (JsBool true) else searchParams !! k.
Proof.
  unfold defaultSearchParams.
  set (sp1 := if isUndefined (searchParams !! "includeArchivedNotes")
              then <["includeArchivedNotes" := JsBool true]> searchParams else searchParams).
  assert (H1 : sp1 !! "ignoreHoistedNote" = searchParams !! "ignoreHoistedNote").
  { unfold sp1. destruct (isUndefined (searchParams !! "includeArchivedNotes")); [|done].
    by rewrite lookup_insert_ne. }
  assert (H2 : sp1 !! k = if bool_decide (k = "includeArchivedNotes")
                             && isUndefined (searchParams !! k)
                          then Some (JsBool true) else searchParams !! k).
  { unfold sp1. case_bool_decide as Hk; simpl.
    - subst k. destruct (isUndefined (searchParams !! "includeArchivedNotes")); [|done].
      by rewrite lookup_insert_eq.
    - destruct (isUndefined (searchParams !! "includeArchivedNotes")); [|done].
      by rewrite lookup_insert_ne. }
  rewrite H1.
  destruct (decide (k = "ignoreHoistedNote")) as [->|Hk2].
  - rewrite bool_decide_eq_true_2 by (rewrite !elem_of_cons; auto). simpl.
    destruct (isUndefined (searchParams !! "ignoreHoistedNote")).
    + by rewrite lookup_insert_eq.
    + done.
  - assert (Hsame : (if isUndefined (searchParams !! "ignoreHoistedNote")
                     then <["ignoreHoistedNote" := JsBool true]> sp1 else sp1) !! k = sp1 !! k).
    { destruct (isUndefined (searchParams !! "ignoreHoistedNote")); [|done].
      by rewrite lookup_insert_ne. }
    rewrite Hsame, H2.
    rewrite (bool_decide_ext (k = "includeArchivedNotes")
               (k ∈ ["includeArchivedNotes"; "ignoreHoistedNote"])); [done|].
    rewrite !elem_of_cons, elem_of_nil. split; [by left|]. by intros [?|[?|[]]].
Qed.

Lemma defaultSearchParams_idempotent searchParams :
  defaultSearchParams (defaultSearchParams searchParams) = defaultSearchParams searchParams.
Proof.
  apply map_eq. intros k. rewrite (defaultSearchParams_lookup (defaultSearchParams _)).
  rewrite defaultSearchParams_lookup.
  destruct (bool_decide (k ∈ ["includeArchivedNotes"; "ignoreHoistedNote"])); [|done].
  simpl. destruct (isUndefined (searchParams !! k)) eqn:E; simpl; [done|by rewrite E].
Qed.

Section SearchProperties.

Variable findResultsWithQuery :
  string → gmap string JsValue → Becca → JsError + list SearchResult.t.
Variable getNotes : list string → Becca → JsError + list BNote.t.

(** X14: [searchForNotes] fills in the two flags [includeArchivedNotes]
    and [ignoreHoistedNote] with [true] only where the caller's object
    leaves them undefined: a flag given as [false], [null] or [0] is kept,
    as is every other key.  The object is changed in place, and a second
    search with the object as the first one left it is the same search and
    changes the object no further. *)
Theorem searchForNotes_defaults query searchParams s :
  let out := searchForNotes findResultsWithQuery getNotes query searchParams s in
  (∀ k, k ∈ ["includeArchivedNotes"; "ignoreHoistedNote"] →
        isUndefined (searchParams !! k) = true → out.2 !! k = Some (JsBool true))
  ∧ (∀ k, k ∉ ["includeArchivedNotes"; "ignoreHoistedNote"]
          ∨ isUndefined (searchParams !! k) = false →
          out.2 !! k = searchParams !! k)
  ∧ searchForNotes findResultsWithQuery getNotes query out.2 s = out.
Proof.
  cbv zeta. unfold searchForNotes. simpl. split; [|split].
  - intros k Hk Hu. rewrite defaultSearchParams_lookup, Hu.
    by rewrite bool_decide_eq_true_2.
  - intros k [Hk|Hu]; rewrite defaultSearchParams_lookup.
    + by rewrite bool_decide_eq_false_2.
    + by rewrite Hu, andb_false_r.
  - by rewrite defaultSearchParams_idempotent.
Qed.

End SearchProperties.

(** ** The members of an instance *)

Lemma foldl_insert_own {V : Type} (names : list string) (this : gmap string (Member V)) k :
  foldl (λ this name, <[name := Own name]> this) this names !! k
  = if bool_decide (k ∈ names) then Some (Own k) else this !! k.
Proof.
  revert this. induction names as [|name names IH]; intros this; cbn [foldl].
  - rewrite bool_decide_eq_false_2; [done|]. apply not_elem_of_nil.
  - rewrite IH. destruct (bool_decide (k ∈ names)) eqn:E.
    + apply bool_decide_eq_true in E. rewrite bool_decide_eq_true_2; [done|].
      apply elem_of_cons. by right.
    + apply bool_decide_eq_false in E. rewrite lookup_insert. case_decide as Hk.
      * subst k. rewrite bool_decide_eq_true_2; [done|]. apply elem_of_cons. by left.
      * rewrite bool_decide_eq_false_2; [done|]. rewrite elem_of_cons. by intros [?|?].
Qed.

(** X15: what a script finds on an instance.  A key of [apiParams] that
    is the name of a member of the API ([log], [getNote], [sql], ...) does
    not replace that member; any other key of [apiParams] is on the
    instance with the value given, [currentNote] included, which so
    replaces the note that was passed as the first argument; and
    [startNote] is undefined when [apiParams] has none. *)
Theorem constructor_precedence {V : Type} (currentNote : V) (apiParams : gmap string V) :
  let this := constructor currentNote apiParams in
  (∀ name, name ∈ apiMembers → this !! name = Some (Own name))
  ∧ (∀ k v, k ∉ apiMembers → apiParams !! k = Some v → this !! k = Some (Given (Some v)))
  ∧ (apiParams !! "currentNote" = None → this !! "currentNote" = Some (Given (Some currentNote)))
  ∧ (apiParams !! "startNote" = None → this !! "startNote" = Some (Given None)).
Proof.
  cbv zeta. unfold constructor. split; [|split; [|split]].
  - intros name Hin. by rewrite foldl_insert_own, bool_decide_eq_true_2.
  - intros k v Hk Hv. rewrite foldl_insert_own, bool_decide_eq_false_2 by done.
    apply lookup_union_Some_l. by rewrite lookup_fmap, Hv.
  - intros Hnone. rewrite foldl_insert_own.
    rewrite lookup_union_r by by rewrite lookup_fmap, Hnone.
    by vm_compute.
  - intros Hnone. rewrite foldl_insert_own.
    rewrite lookup_union_r by by rewrite lookup_fmap, Hnone.
    assert (bool_decide ("startNote" ∈ apiMembers) = false) as -> by (vm_compute; reflexivity).
    rewrite lookup_insert_ne by done. rewrite lookup_insert_ne by done.
    by rewrite lookup_insert_eq, Hnone.
Qed.

Lemma sent_batches_are_not_empty_witness :
  WsMessage.type (WsMessage.mk "api-log-messages" "n1" (Some [JsString "m"]))
    = "api-log-messages"
  ∧ ∃ m ms, WsMessage.messages (WsMessage.mk "api-log-messages" "n1" (Some [JsString "m"]))
            = Some (m :: ms).
Proof.
  assert (Hsent : wsSent (run [Log (JsString "m"); TimerFires "n1"]
                            (newBackendScriptApi exampleOtherNote exampleStartNote))
                  = [WsMessage.mk "api-log-messages" "n1" (Some [JsString "m"])])
    by (vm_compute; reflexivity).
  apply (sent_batches_are_not_empty exampleOtherNote exampleStartNote
           [Log (JsString "m"); TimerFires "n1"]).
  rewrite Hsent. apply list_elem_of_singleton. reflexivity.
Defined.
